(** * NeuroRA: correction utilities ([neurora/stuff.py]) and RDM plotting
      ([neurora/rsa_plot.py])

    A shallow embedding of the numerical routines of the two modules and the
    properties of them that the specification states.

    Values are IEEE-754 binary64 numbers ([PrimFloat.float], what NumPy calls
    [float64] and Python calls [float]); Python integers that count or index
    are [nat], the integer [threshold] a caller passes is [Z]. *)

From stdpp Require Import base option list sorting gmap strings.
From Stdlib Require Import ZArith Floats Uint63 Lia.
From Stdlib Require DecimalString DecimalNat.

Set Warnings "-inexact-float".
Set Default Proof Using "Type".

(** Python's [range(n)]; a negative bound gives the empty range, as the
    truncated subtraction of [nat] does for the bounds the sources compute. *)
Definition range (n : nat) : list nat := seq 0 n.

(** ** The NumPy layer *)
Module Np.

(** [float(n)] for a non-negative Python integer (round to nearest even).
    Counts and indices here are bounded by the number of voxels of an array
    held in memory, far below [2^63]. *)
Definition float_of_int (n : nat) : float := of_uint63 (Uint63.of_Z (Z.of_nat n)).

(** A 3-D [ndarray] of dtype float64: its shape and its element map.  Every
    subscript the modelled loops compute lies inside the shape (see
    [voxels_spec] and [windows_inside] below), so NumPy's [IndexError] and
    its clipping of slices never come into play. *)
Record ndarray : Type := Ndarray {
  shape : nat * nat * nat;
  item : nat -> nat -> nat -> float
}.

(** [np.full([px, py, pz], v)] and [np.zeros([n, n, n])]. *)
Definition full (sh : nat * nat * nat) (v : float) : ndarray :=
  Ndarray sh (fun _ _ _ => v).
Definition zeros (sh : nat * nat * nat) : ndarray := full sh 0%float.

(** [a[i, j, k] = v]. *)
Definition setitem (a : ndarray) (i j k : nat) (v : float) : ndarray :=
  Ndarray (shape a)
    (fun i' j' k' =>
       if (i' =? i) && (j' =? j) && (k' =? k) then v else item a i' j' k').

(** Membership in the half-open interval [lo : lo + n] of a slice. *)
Definition in_slice (lo n x : nat) : bool := (lo <=? x) && (x <? lo + n).

(** [a[i:i+n, j:j+n, k:k+n] = b] for a block [b] of shape [n, n, n]. *)
Definition setblock (a : ndarray) (i j k n : nat) (b : ndarray) : ndarray :=
  Ndarray (shape a)
    (fun i' j' k' =>
       if in_slice i n i' && in_slice j n j' && in_slice k n k'
       then item b (i' - i) (j' - j) (k' - k)
       else item a i' j' k').

(** The index triples of a [for i in range(px): for j in range(py):
    for k in range(pz)] nest, in the order the loops visit them (which is
    also the C order in which [np.reshape] flattens). *)
Definition voxels (sh : nat * nat * nat) : list (nat * nat * nat) :=
  let '(px, py, pz) := sh in
  i ← range px; j ← range py; k ← range pz; [(i, j, k)].

(** [list(np.reshape(a[i:i+n, j:j+n, k:k+n], [n*n*n]))]. *)
Definition block (a : ndarray) (i j k n : nat) : list float :=
  (fun '(x, y, z) => item a (i + x) (j + y) (k + z)) <$> voxels (n, n, n).

(** [l.count(0)]: the elements that compare equal to zero ([-0.0] does,
    NaN does not). *)
Definition count0 (l : list float) : nat :=
  length (filter (fun v => (v =? 0)%float = true) l).

(** [a * c] for a scalar [c], elementwise, as a new array. *)
Definition scalar_mul (a : ndarray) (c : float) : ndarray :=
  Ndarray (shape a) (fun i j k => (item a i j k * c)%float).

(** [a[i]] for a 1-D array, held as a list; every read the loops make is in
    range. *)
Definition get1 (a : list float) (i : nat) : float := default nan (a !! i).

(** [np.argsort(a)] for an array without NaN: the indices of [a] in
    ascending order of their values.  NumPy's default sort promises no order
    among equal values; here they stay in index order (each index is
    inserted behind every index already placed whose value is not larger),
    which is what a stable sort gives. *)
Fixpoint insert_index (a : list float) (x : nat) (s : list nat) : list nat :=
  match s with
  | [] => [x]
  | y :: s' =>
      if (get1 a x <? get1 a y)%float then x :: s else y :: insert_index a x s'
  end.
Definition argsort (a : list float) : list nat :=
  foldl (fun s x => insert_index a x s) [] (range (length a)).

End Np.

(** ** [neurora/stuff.py] *)
Module Stuff.
Import Np.

(** The guard [(math.isnan(p[i, j, k]) == False) and (p[i, j, k] != 0)]. *)
Definition counted (v : float) : bool :=
  negb (is_nan v) && negb (v =? 0)%float.

(** The counting loop shared by [fwe_correct] and [fdr_correct]. *)
Definition count_voxels (p : ndarray) : nat :=
  foldl (fun n '(i, j, k) => if counted (item p i j k) then n + 1 else n)
        0 (voxels (shape p)).

(** [fwe_correct(p)]. *)
Definition fwe_correct (p : ndarray) : ndarray :=
  let n := count_voxels p in
  scalar_mul p (float_of_int n).

(** The gathering loop of [fdr_correct]: [pcluster[m] = p[i, j, k]]. *)
Definition gather (p : ndarray) (pcluster : list float) : list float * nat :=
  foldl (fun '(pc, m) '(i, j, k) =>
           if counted (item p i j k)
           then (<[m := item p i j k]> pc, m + 1)
           else (pc, m))
        (pcluster, 0) (voxels (shape p)).

(** [pcluster[index[l]] = float(pcluster[index[l]] * n / (l + 0.5))]. *)
Definition rescale_ranked (n : nat) (index : list nat) (pcluster : list float)
  : list float :=
  foldl (fun pc l =>
           let t := default 0 (index !! l) in
           <[t := (get1 pc t * float_of_int n / (float_of_int l + 0.5))%float]> pc)
        pcluster (range n).

(** [newpcluster[l] = pcluster[index[l]]]. *)
Definition reorder (n : nat) (index : list nat) (pcluster : list float)
  : list float :=
  foldl (fun np l => <[l := get1 pcluster (default 0 (index !! l))]> np)
        (replicate n nan) (range n).

(** The scattering loop: [fdrp[i, j, k] = newpcluster[m]]. *)
Definition scatter (p : ndarray) (newpcluster : list float) (fdrp : ndarray)
  : ndarray * nat :=
  foldl (fun '(f, m) '(i, j, k) =>
           if counted (item p i j k)
           then (setitem f i j k (get1 newpcluster m), m + 1)
           else (f, m))
        (fdrp, 0) (voxels (shape p)).

(** [fdr_correct(p)]. *)
Definition fdr_correct (p : ndarray) : ndarray :=
  let n := count_voxels p in
  let fdrp := full (shape p) nan in
  let pcluster := fst (gather p (replicate n 0%float)) in
  let index := argsort pcluster in
  let pcluster := rescale_ranked n index pcluster in
  let newpcluster := reorder n index pcluster in
  fst (scatter p newpcluster fdrp).

(** [while nsmall*nsmall*nsmall < threshold: nsmall = nsmall + 1], run for at
    most [fuel] iterations ([find_nsmall_exit] shows the fuel given below is
    never used up before the loop condition fails). *)
Fixpoint nsmall_loop (fuel : nat) (threshold : Z) (nsmall : nat) : nat :=
  match fuel with
  | O => nsmall
  | S fuel' =>
      if (Z.of_nat (nsmall * nsmall * nsmall) <? threshold)%Z
      then nsmall_loop fuel' threshold (nsmall + 1)
      else nsmall
  end.
Definition find_nsmall (threshold : Z) : nat :=
  nsmall_loop (Z.to_nat threshold) threshold 1.

(** [if img[...] == 0: index1 = index1 + 1]. *)
Definition bump (img : ndarray) (i j k : nat) (index1 : nat) : nat :=
  if (item img i j k =? 0)%float then index1 + 1 else index1.

(** The first counting nest: the two faces [k] and [k + nlarge - 1]. *)
Definition count_faces (img : ndarray) (i j k nlarge : nat) (index1 : nat) : nat :=
  foldl (fun ix l =>
           foldl (fun ix m =>
                    bump img (i + l) (j + m) (k + nlarge - 1)
                      (bump img (i + l) (j + m) k ix))
                 ix (range nlarge))
        index1 (range nlarge).

(** The second counting nest: four strips per [(l, m)]. *)
Definition count_sides (img : ndarray) (i j k nlarge : nat) (index1 : nat) : nat :=
  foldl (fun ix l =>
           foldl (fun ix m =>
                    bump img (i + l + 1) (j + nlarge - 1) (k + m)
                      (bump img (i + nlarge - 1) (j + l) (k + m)
                         (bump img i (j + l + 1) (k + m)
                            (bump img (i + l) j (k + m) ix))))
                 ix (range (nlarge - 2)))
        index1 (range (nlarge - 1)).

(** The innermost nest: the same slice assignment once per [(l, m, p)]. *)
Definition clear_unit (img : ndarray) (i j k nsmall : nat) : ndarray :=
  foldl (fun im _ =>
           setblock im (i + 1) (j + 1) (k + 1) nsmall (zeros (nsmall, nsmall, nsmall)))
        img (voxels (nsmall, nsmall, nsmall)).

(** The body of the [(i, j, k)] nest of [correct_by_threshold], acting on
    the contents of [img].  The [print] calls and the expression statement
    [img[i+1:i+1+nsmall, j]] change nothing and are left out. *)
Definition visit (threshold : Z) (nsmall nlarge : nat) (img : ndarray)
    (w : nat * nat * nat) : ndarray :=
  let '(i, j, k) := w in
  let listlarge := block img i j k nlarge in
  if count0 listlarge <? nlarge * nlarge * nlarge then
    let index1 := count_sides img i j k nlarge (count_faces img i j k nlarge 0) in
    let nex := nlarge * nlarge * nlarge - nsmall * nsmall * nsmall in
    if index1 =? nex then
      let list_internal := block img (i + 1) (j + 1) (k + 1) nsmall in
      let index2 := nsmall * nsmall * nsmall - count0 list_internal in
      if (Z.of_nat index2 <? threshold)%Z
      then clear_unit img i j k nsmall
      else img
    else img
  else img.

(** The window origins [range(sx-nlarge+1) x range(sy-nlarge+1) x
    range(sz-nlarge+1)]. *)
Definition windows (sh : nat * nat * nat) (nlarge : nat) : list (nat * nat * nat) :=
  let '(sx, sy, sz) := sh in
  voxels (sx + 1 - nlarge, sy + 1 - nlarge, sz + 1 - nlarge).

(** What [correct_by_threshold(img, threshold)] does to the contents of the
    array object [img]. *)
Definition correct_contents (img : ndarray) (threshold : Z) : ndarray :=
  let nsmall := find_nsmall threshold in
  let nlarge := nsmall + 2 in
  foldl (visit threshold nsmall nlarge) img (windows (shape img) nlarge).

(** Array objects live in a store; a Python variable holds a reference. *)
Definition ref := nat.
Definition store := gmap ref ndarray.

(** [correct_by_threshold(img, threshold)]: the assignments go to the
    object [img] refers to, and [return img] hands the same reference
    back.  [None] when [img] is not an array of the store. *)
Definition correct_by_threshold (st : store) (img : ref) (threshold : Z)
  : option (store * ref) :=
  a ← st !! img;
  Some (<[img := correct_contents a threshold]> st, img).

(** [datamask(fmri_data, mask_data)]. *)
Definition datamask (fmri_data mask_data : ndarray) : ndarray :=
  let '(nx, ny, nz) := shape fmri_data in
  foldl (fun newfmri_data '(i, j, k) =>
           if negb (item mask_data i j k =? 0)%float
              && negb (is_nan (item mask_data i j k))
           then setitem newfmri_data i j k (item fmri_data i j k)
           else newfmri_data)
        (full (nx, ny, nz) nan) (voxels (nx, ny, nz)).

End Stuff.

(** ** [neurora/rsa_plot.py]: the two RDM plots *)
Module RsaPlot.

(** A 2-D float64 array: its shape and its entries. *)
Record matrix : Type := Matrix {
  mshape : nat * nat;
  entry : nat -> nat -> float
}.

(** [rdm[i, j] = v]. *)
Definition set_entry (rdm : matrix) (i j : nat) (v : float) : matrix :=
  Matrix (mshape rdm)
    (fun i' j' => if (i' =? i) && (j' =? j) then v else entry rdm i' j').

(** The index pairs of [for i in range(a): for j in range(b)]. *)
Definition cells (a b : nat) : list (nat * nat) :=
  i ← range a; j ← range b; [(i, j)].

(** What a call does besides changing [rdm]: console output and the calls
    made to the plotting backend, in order.  Tick positions and the
    four-decimal formatting of a cell's text are the backend's business and
    are not computed here. *)
Inductive event : Type :=
| Print (msg : string)
| PrintCell (i j : nat)
| Imshow (img : matrix) (cmap : string)
| ColorbarLabel (label : string)
| Ticks (conditions : list string) (con_fontsize : float)
| AxisOff
| Text (i j : nat) (v : float) (value_fontsize : float)
| Show.

Inductive value : Type := PyNone.
Inductive exn : Type := IndexError | UnboundLocalError.
Inductive outcome : Type := Returned (v : value) | Raised (e : exn).

(** The result of a call: how it ended, the contents of the caller's [rdm]
    afterwards, and the events it produced. *)
Record result : Type := Result {
  ended : outcome;
  rdm_after : matrix;
  trace : list event
}.

(** [set(vrdm)]: one representative (the first met) of every class of
    entries that compare equal; NaN compares equal to nothing. *)
Definition set_of (vrdm : list float) : list float :=
  foldl (fun s v => if existsb (fun u => (u =? v)%float) s then s else s ++ [v])
        [] vrdm.

(** [lvrdm.sort()] on pairwise different numbers. *)
Fixpoint insert_sorted (v : float) (l : list float) : list float :=
  match l with
  | [] => [v]
  | u :: l' => if (v <? u)%float then v :: l else u :: insert_sorted v l'
  end.
Definition sort (l : list float) : list float :=
  foldl (fun s v => insert_sorted v s) [] l.

(** [np.reshape(rdm, [cons * cons])], then [set], [list] and [sort]. *)
Definition sorted_values (rdm : matrix) (cons : nat) : list float :=
  sort (set_of ((fun '(i, j) => entry rdm i j) <$> cells cons cons)).

(** The rescaling nest. *)
Definition rescale_loop (rdm : matrix) (cons : nat) (minvalue maxvalue : float)
  : matrix :=
  foldl (fun r '(i, j) =>
           if negb (i =? j)
           then set_entry r i j ((entry r i j - minvalue) / (maxvalue - minvalue))%float
           else r)
        rdm (cells cons cons).

(** The block under [if rescale == True:]; [lvrdm[-1]] and [lvrdm[1]] raise
    [IndexError] on a list that is too short. *)
Definition rescale_rdm (rdm : matrix) (cons : nat) : exn + matrix :=
  let lvrdm := sorted_values rdm cons in
  match last lvrdm with
  | None => inl IndexError
  | Some maxvalue =>
      match lvrdm !! 1 with
      | None => inl IndexError
      | Some minvalue =>
          if negb (maxvalue =? minvalue)%float
          then inr (rescale_loop rdm cons minvalue maxvalue)
          else inr rdm
      end
  end.

(** The labelling of the axes, shared by both plots. *)
Definition axes (conditions : option (list string)) (con_fontsize : float)
  : list event :=
  match conditions with
  | Some cs => [Print "1"; Ticks cs con_fontsize]
  | None => [AxisOff]
  end.

(** [plot_rdm(rdm, rescale, conditions, con_fontsize, cmap)]. *)
Definition plot_rdm (rdm : matrix) (rescale : bool)
    (conditions : option (list string)) (con_fontsize : float)
    (cmap : option string) : result :=
  let cons := fst (mshape rdm) in
  if cons =? 2 then
    Result (Returned PyNone) rdm
      [Print "The shape of RDM cannot be 2*2. Here NeuroRA cannot plot this RDM."]
  else
    let '(a, b) := mshape rdm in
    if negb (a =? b) then Result (Returned PyNone) rdm []
    else
      match (if rescale then rescale_rdm rdm cons else inr rdm) with
      | inl e => Result (Raised e) rdm []
      | inr rdm' =>
          Result (Returned PyNone) rdm'
            ([Imshow rdm' (default "jet" cmap);
              ColorbarLabel (if rescale then "Dissimilarity (Rescaling)"
                             else "Dissimilarity")]
             ++ axes conditions con_fontsize ++ [Show])
      end.

(** The [# add values] nest of [plot_rdm_withvalue]; [step] is bound only
    when [conditions] is given. *)
Definition add_values (rdm : matrix) (cons : nat) (value_fontsize : float)
    (conditions : option (list string)) : outcome * list event :=
  match conditions, cells cons cons with
  | None, (i, j) :: _ => (Raised UnboundLocalError, [PrintCell i j])
  | _, cs =>
      (Returned PyNone,
       ('(i, j) ← cs; [PrintCell i j; Text i j (entry rdm i j) value_fontsize])
       ++ [Show])
  end.

(** [plot_rdm_withvalue(rdm, value_fontsize, conditions, con_fontsize, cmap)]. *)
Definition plot_rdm_withvalue (rdm : matrix) (value_fontsize : float)
    (conditions : option (list string)) (con_fontsize : float)
    (cmap : option string) : result :=
  let cons := fst (mshape rdm) in
  if cons =? 2 then
    Result (Returned PyNone) rdm
      [Print "The shape of RDM cannot be 2*2. Here NeuroRA cannot plot this RDM."]
  else
    let '(a, b) := mshape rdm in
    if negb (a =? b) then Result (Returned PyNone) rdm []
    else
      let '(end_, texts) := add_values rdm cons value_fontsize conditions in
      Result end_ rdm
        ([Imshow rdm (default "Greens" cmap); ColorbarLabel "Dissimilarity"]
         ++ axes conditions con_fontsize ++ texts).

End RsaPlot.

(** ** Notions the properties are stated with *)

(** The unit of a window: the cube [i+1 : i+1+nsmall] along each axis. *)
Definition in_unit (i j k nsmall a b c : nat) : bool :=
  Np.in_slice (i + 1) nsmall a && Np.in_slice (j + 1) nsmall b
  && Np.in_slice (k + 1) nsmall c.

(** The three tests that guard the clearing nest. *)
Definition fires (threshold : Z) (nsmall nlarge : nat) (img : Np.ndarray)
    (i j k : nat) : bool :=
  (Np.count0 (Np.block img i j k nlarge) <? nlarge * nlarge * nlarge)
  && (Stuff.count_sides img i j k nlarge (Stuff.count_faces img i j k nlarge 0)
      =? nlarge * nlarge * nlarge - nsmall * nsmall * nsmall)
  && (Z.of_nat (nsmall * nsmall * nsmall
                - Np.count0 (Np.block img (i + 1) (j + 1) (k + 1) nsmall))
      <? threshold)%Z.

(** The voxels of a list that are not equal to zero (NaN is one of them). *)
Definition nonzero_count (l : list float) : nat :=
  length (filter (fun v => (v =? 0)%float = false) l).

(** Offsets on the shell of an [nlarge]-cube: the outermost layer. *)
Definition on_shell (nlarge x y z : nat) : bool :=
  (x =? 0) || (x =? nlarge - 1) || (y =? 0) || (y =? nlarge - 1)
  || (z =? 0) || (z =? nlarge - 1).

(** Every voxel on the shell of the window at [(i, j, k)] is zero. *)
Definition shell_zero (img : Np.ndarray) (i j k nlarge : nat) : bool :=
  forallb (fun '(x, y, z) =>
             if on_shell nlarge x y z
             then (Np.item img (i + x) (j + y) (k + z) =? 0)%float
             else true)
          (Np.voxels (nlarge, nlarge, nlarge)).

(** Relative to the input, a state of the nest has only lost voxels. *)
Definition cleared_from (img s : Np.ndarray) : Prop :=
  forall a b c, Np.item s a b c = Np.item img a b c \/ Np.item s a b c = 0%float.

(** An event that only writes to the console. *)
Definition console_only (e : RsaPlot.event) : bool :=
  match e with
  | RsaPlot.Print _ | RsaPlot.PrintCell _ _ => true
  | _ => false
  end.

(** [x < y] and [x != y] on binary64 numbers, as relations. *)
Definition flt (x y : float) : Prop := (x <? y)%float = true.
Definition fne (x y : float) : Prop := (x =? y)%float = false.



(** The voxels [fdr_correct] and [fwe_correct] count, in scan order, and the
    p-values they hold. *)
Definition counted_among (p : Np.ndarray) (l : list (nat * nat * nat))
  : list (nat * nat * nat) :=
  filter (fun '(i, j, k) => Stuff.counted (Np.item p i j k) = true) l.
Definition counted_voxels (p : Np.ndarray) : list (nat * nat * nat) :=
  counted_among p (Np.voxels (Np.shape p)).
Definition values_at (p : Np.ndarray) (l : list (nat * nat * nat)) : list float :=
  (fun '(i, j, k) => Np.item p i j k) <$> l.

(** [x] is not ranked above [y] by the values of [a]. *)
Definition not_above (a : list float) (x y : nat) : Prop :=
  (Np.get1 a y <? Np.get1 a x)%float = false.

(** ** Concrete maps used by the examples below *)
Module Examples.
Import Np.

(** [np.array(rows)] for a nested list of equal-length rows. *)
Definition array (rows : list (list (list float))) : ndarray :=
  Ndarray (length rows, length (default [] (head rows)),
           length (default [] (head (default [] (head rows)))))
          (fun i j k =>
             default nan (plane ← rows !! i; row ← plane !! j; row !! k)).

(** A map that is [v] at the listed voxels and zero elsewhere. *)
Definition sparse (sh : nat * nat * nat) (on : list (nat * nat * nat)) (v : float)
  : ndarray :=
  Ndarray sh (fun i j k => if bool_decide ((i, j, k) ∈ on) then v else 0%float).

(** Two p-values in descending scan order. *)
Definition p_descending : ndarray := array [[[0.02; 0.01]]]%float.

(** The p-map of the specification's FWE example. *)
Definition p_fwe : ndarray := array [[[0.01; 0.02; 0; nan]]]%float.

(** A single exact zero. *)
Definition p_zero : ndarray := array [[[0]]]%float.

(** A 5x4x4 map holding a straight line of three voxels, none on the
    boundary of the volume. *)
Definition line3 : ndarray := sparse (5, 4, 4) [(1, 1, 1); (2, 1, 1); (3, 1, 1)] 1%float.

(** A 4x4x4 map holding one voxel in the middle. *)
Definition speck : ndarray := sparse (4, 4, 4) [(1, 1, 1)] 1%float.

(** A 4x4x4 map holding two face-adjacent voxels, one of them on the
    boundary of the volume. *)
Definition pair_at_edge : ndarray := sparse (4, 4, 4) [(1, 1, 2); (0, 1, 2)] 1%float.

(** A 5x4x4 map holding two face-adjacent voxels, none on the boundary. *)
Definition pair_inside : ndarray := sparse (5, 4, 4) [(1, 1, 2); (2, 1, 2)] 1%float.

(** [np.array(rows)] for a list of rows. *)
Definition matrix_of (rows : list (list float)) : RsaPlot.matrix :=
  RsaPlot.Matrix (length rows, length (default [] (head rows)))
    (fun i j => default nan (row ← rows !! i; row !! j)).

(** A 3x3 dissimilarity matrix, a 2x2 one and a 3x2 one. *)
Definition rdm3 : RsaPlot.matrix :=
  matrix_of [[0; 0.5; 2]; [0.5; 0; 1]; [2; 1; 0]]%float.
Definition rdm2 : RsaPlot.matrix := matrix_of [[0; 1]; [1; 0]]%float.
Definition rdm32 : RsaPlot.matrix := matrix_of [[0; 1]; [1; 0]; [2; 3]]%float.

End Examples.

(** ** [neurora/stuff.py]: [limtozero] *)
Module Limit.



End Limit.

(** ** [neurora/rsa_plot.py]: the channel labels of the two hotmaps *)
Module Labels.

(** [str(n)] for a non-negative integer: its decimal digits. *)
Definition str (n : nat) : string :=
  DecimalString.NilEmpty.string_of_uint (Nat.to_uint n).

(** The label the loop under [if chllabels == None:] builds for channel [i]. *)
Definition newlabel (i : nat) : string :=
  if (i mod 10 =? 0) && negb (i =? 10) then str (i + 1) +:+ "st"
  else if (i mod 10 =? 1) && negb (i =? 11) then str (i + 1) +:+ "nd"
  else if (i mod 10 =? 2) && negb (i =? 12) then str (i + 1) +:+ "rd"
  else str (i + 1) +:+ "th".

(** [chllabels] after the block [# set labels of the channels] of
    [plot_corrs_hotmap] and [plot_nps_hotmap]. *)
Definition set_labels (chllabels : option (list string)) (nchls : nat)
  : list string :=
  match chllabels with
  | Some given => given
  | None => foldl (fun chllabels i => chllabels ++ [newlabel i]) [] (range nchls)
  end.

End Labels.

(** ** [neurora/rsa_plot.py]: the brain plots *)
Module BrainPlot.
Import Np.

(** A NIfTI file: its voxel data and its affine.  The file system is a map
    from paths to files. *)
Definition affine : Type := list (list float).
Record volume : Type := Volume { get_data : ndarray; vol_affine : affine }.
Definition files : Type := gmap string volume.

(** [nib.load(path)]; a missing file raises. *)
Definition nib_load (fs : files) (path : string) : option volume := fs !! path.

(** [stuff.get_affine(file_name)]. *)
Definition get_affine (fs : files) (file_name : string) : option affine :=
  vol_affine <$> nib_load fs file_name.

(** What the plotting backend is handed as an image: the path the caller
    gave, or a [nib.Nifti1Image] built in memory. *)
Inductive niimg : Type :=
| AtPath (path : string)
| Nifti1Image (dataobj : ndarray) (aff : affine).

(** One entry of [slice]: a coordinate or a list of coordinates. *)
Inductive cut : Type := Coord (c : float) | Coords (cs : list float).

(** [slice_x != 0]; a list is never equal to [0]. *)
Definition cut_given (c : cut) : bool :=
  match c with
  | Coord x => negb (x =? 0)%float
  | Coords _ => true
  end.

(** Console output and the calls made to nilearn and matplotlib, in order.
    Surface meshes and textures are named, not computed. *)
Inductive event : Type :=
| Print (msg : string)
| PlotRoi (roi_img : niimg) (bg_img : string)
| PlotStatMap (stat_map_img : niimg) (bg_img : string) (display_mode : string)
    (cut_coords : cut) (title : string)
| PlotGlassBrain (img : niimg)
| FetchSurfFsaverage
| VolToSurf (img : niimg) (mesh : string)
| PlotSurfStatMap (mesh texture hemi : string) (colorbar : bool)
| Show.

Inductive exn : Type := FileNotFoundError | NameError.
Inductive outcome : Type := ReturnedNone | Raised (e : exn).
Record result : Type := Result { ended : outcome; trace : list event }.

(** [(imgarray == np.nan).all() == True]. *)
Definition all_equal_nan (imgarray : ndarray) : bool :=
  forallb (fun '(i, j, k) => (item imgarray i j k =? nan)%float)
          (voxels (shape imgarray)).

(** The block under [if threshold != None:]: the file is loaded again, its
    data corrected in place and wrapped with the file's affine; without a
    threshold [img] stays the path. *)
Definition corrected (fs : files) (img : string) (threshold : option Z)
  : option niimg :=
  match threshold with
  | None => Some (AtPath img)
  | Some t =>
      v ← nib_load fs img;
      aff ← get_affine fs img;
      Some (Nifti1Image (Stuff.correct_contents (get_data v) t) aff)
  end.

(** The frame the five functions share: load, test, correct, then [draw]. *)
Definition with_volume (fs : files) (img : string) (threshold : option Z)
    (draw : niimg -> result) : result :=
  match nib_load fs img with
  | None => Result (Raised FileNotFoundError) []
  | Some v =>
      if all_equal_nan (get_data v)
      then Result ReturnedNone [Print "No Valid Results"]
      else match corrected fs img threshold with
           | None => Result (Raised FileNotFoundError) []
           | Some img' => draw img'
           end
  end.

(** [plot_brainrsa_regions(img, threshold, background)]. *)
Definition plot_brainrsa_regions (fs : files) (img : string)
    (threshold : option Z) (background : string) : result :=
  with_volume fs img threshold
    (fun img' => Result ReturnedNone [PlotRoi img' background; Show]).

(** [plot_brainrsa_montage(img, threshold, slice, background)]. *)
Definition plot_brainrsa_montage (fs : files) (img : string)
    (threshold : option Z) (slice : cut * cut * cut) (background : string)
  : result :=
  with_volume fs img threshold
    (fun img' =>
       let '(slice_x, slice_y, slice_z) := slice in
       Result ReturnedNone
         ((if cut_given slice_x
           then [PlotStatMap img' background "x" slice_x "Similarity -sagittal"]
           else [])
          ++ (if cut_given slice_y
              then [PlotStatMap img' background "y" slice_y "Similarity -coronal"]
              else [])
          ++ (if cut_given slice_z
              then [PlotStatMap img' background "z" slice_z "Similarity -axial"]
              else [])
          ++ [Show])).

(** [plot_brainrsa_glass(img, threshold)]. *)
Definition plot_brainrsa_glass (fs : files) (img : string)
    (threshold : option Z) : result :=
  with_volume fs img threshold
    (fun img' => Result ReturnedNone [PlotGlassBrain img'; Show]).

(** [plot_brainrsa_surface(img, threshold)]. *)
Definition plot_brainrsa_surface (fs : files) (img : string)
    (threshold : option Z) : result :=
  with_volume fs img threshold
    (fun img' =>
       Result ReturnedNone
         [FetchSurfFsaverage;
          VolToSurf img' "pial_left"; VolToSurf img' "pial_right";
          PlotSurfStatMap "pial_left" "texture_left" "left" false;
          PlotSurfStatMap "pial_right" "texture_right" "right" true;
          PlotSurfStatMap "pial_right" "texture_left" "left" false;
          PlotSurfStatMap "pial_left" "texture_right" "right" true;
          Show]).

(** [plot_brainrsa_rlts(img, threshold, slice)]: the name [background] is
    bound nowhere, so the test [background == None] raises before any of the
    four plots is called. *)
Definition plot_brainrsa_rlts (fs : files) (img : string)
    (threshold : option Z) (slice : cut * cut * cut) : result :=
  with_volume fs img threshold (fun _ => Result (Raised NameError) []).

End BrainPlot.

(** ** Notions the further properties are stated with *)


(** The suffix of the English ordinal of [n]: 1st, 2nd, 3rd, 4th, ..., 11th,
    12th, 13th, ..., 21st, ..., 111th, ... *)
Definition ordinal_suffix (n : nat) : string :=
  if (n mod 100 =? 11) || (n mod 100 =? 12) || (n mod 100 =? 13) then "th"
  else if n mod 10 =? 1 then "st"
  else if n mod 10 =? 2 then "nd"
  else if n mod 10 =? 3 then "rd"
  else "th".

(** * Properties *)

(** ** Loops and index nests *)

(** A property that holds before a [for] loop and is kept by every pass
    holds after it. *)
Lemma foldl_invariant {A B : Type} (P : A -> Prop) (f : A -> B -> A)
    (l : list B) (a : A) :
  P a -> (forall a' x, x ∈ l -> P a' -> P (f a' x)) -> P (foldl f a l).
Proof.
  revert a. induction l as [|x l IH]; intros a Ha Hstep; simpl; [done|].
  apply IH.
  - apply Hstep; [left | done].
  - intros a' y Hy. apply Hstep. by right.
Qed.

Lemma elem_of_range (n x : nat) : x ∈ range n <-> x < n.
Proof. unfold range. rewrite elem_of_seq. lia. Qed.

Lemma length_range (n : nat) : length (range n) = n.
Proof. apply length_seq. Qed.

Lemma NoDup_range (n : nat) : NoDup (range n).
Proof. apply NoDup_seq. Qed.

(** The triple nest visits exactly the indices inside the shape. *)
Lemma voxels_spec (px py pz i j k : nat) :
  (i, j, k) ∈ Np.voxels (px, py, pz) <-> i < px /\ j < py /\ k < pz.
Proof.
  unfold Np.voxels. rewrite list_elem_of_bind. split.
  - intros (i' & Hin & Hi). apply list_elem_of_bind in Hin as (j' & Hin & Hj).
    apply list_elem_of_bind in Hin as (k' & Hin & Hk).
    apply list_elem_of_singleton in Hin. simplify_eq.
    by rewrite !elem_of_range in *.
  - intros (Hi & Hj & Hk). exists i. split; [|by apply elem_of_range].
    apply list_elem_of_bind. exists j. split; [|by apply elem_of_range].
    apply list_elem_of_bind. exists k. split; [|by apply elem_of_range].
    by apply list_elem_of_singleton.
Qed.

Lemma cells_spec (a b i j : nat) :
  (i, j) ∈ RsaPlot.cells a b <-> i < a /\ j < b.
Proof.
  unfold RsaPlot.cells. rewrite list_elem_of_bind. split.
  - intros (i' & Hin & Hi). apply list_elem_of_bind in Hin as (j' & Hin & Hj).
    apply list_elem_of_singleton in Hin. simplify_eq.
    by rewrite !elem_of_range in *.
  - intros (Hi & Hj). exists i. split; [|by apply elem_of_range].
    apply list_elem_of_bind. exists j. split; [|by apply elem_of_range].
    by apply list_elem_of_singleton.
Qed.


(** ** Elementwise facts about the NumPy layer *)

Lemma setitem_same (a : Np.ndarray) (i j k : nat) (v : float) :
  Np.item (Np.setitem a i j k v) i j k = v.
Proof. simpl. by rewrite !Nat.eqb_refl. Qed.

Lemma setitem_other (a : Np.ndarray) (i j k i' j' k' : nat) (v : float) :
  (i', j', k') <> (i, j, k) ->
  Np.item (Np.setitem a i j k v) i' j' k' = Np.item a i' j' k'.
Proof.
  intros Hne. simpl.
  destruct (Nat.eqb_spec i' i), (Nat.eqb_spec j' j), (Nat.eqb_spec k' k);
    simpl; congruence.
Qed.

(** ** Binary64 facts *)

Section Binary64.
Local Open Scope Z_scope.

Lemma nan_spec (x : float) : is_nan x = true <-> Prim2SF x = S754_nan.
Proof.
  split.
  - intros H. unfold Prim2SF. by rewrite H.
  - intros H. unfold is_nan. by rewrite FloatAxioms.eqb_spec, H.
Qed.

Lemma zero_spec (x : float) :
  (x =? 0)%float = true <-> exists s, Prim2SF x = S754_zero s.
Proof.
  split.
  - intros H. exists (get_sign x). unfold Prim2SF.
    destruct (is_nan x) eqn:Hnan.
    + apply nan_spec in Hnan. rewrite FloatAxioms.eqb_spec, Hnan in H. done.
    + unfold PrimFloat.is_zero, PrimFloat.zero. by rewrite H.
  - intros [s H]. rewrite FloatAxioms.eqb_spec, H. by destruct s.
Qed.

(** A NaN times anything is that NaN. *)
Lemma mul_nan_l (x y : float) : is_nan x = true -> (x * y)%float = x.
Proof.
  rewrite nan_spec. intros H. apply Prim2SF_inj.
  by rewrite FloatAxioms.mul_spec, H.
Qed.

(** The number of binary digits of a positive number bounds it below. *)
Lemma digits2_pos_lower (p : positive) :
  2 ^ (Zpos (digits2_pos p) - 1) <= Zpos p.
Proof.
  induction p as [p IH|p IH|]; simpl digits2_pos; [| |done].
  - rewrite Pos2Z.inj_succ.
    replace (Z.succ (Zpos (digits2_pos p)) - 1) with (Z.succ (Zpos (digits2_pos p) - 1))
      by lia.
    rewrite Z.pow_succ_r by lia. lia.
  - rewrite Pos2Z.inj_succ.
    replace (Z.succ (Zpos (digits2_pos p)) - 1) with (Z.succ (Zpos (digits2_pos p) - 1))
      by lia.
    rewrite Z.pow_succ_r by lia. lia.
Qed.

Lemma digits2_pos_upper (p : positive) : Zpos p < 2 ^ Zpos (digits2_pos p).
Proof.
  induction p as [p IH|p IH|]; simpl digits2_pos; [| |done].
  - rewrite Pos2Z.inj_succ, Z.pow_succ_r by lia. lia.
  - rewrite Pos2Z.inj_succ, Z.pow_succ_r by lia. lia.
Qed.

Lemma Zdigits2_bound (m k : Z) : 0 <= m < 2 ^ k -> 0 <= k -> 0 <= Zdigits2 m <= k.
Proof.
  intros [Hm Hlt] Hk. destruct m as [|p|p]; simpl; [lia| |lia].
  split; [lia|].
  pose proof (digits2_pos_lower p) as Hlow.
  assert (2 ^ (Zpos (digits2_pos p) - 1) < 2 ^ k) as Hpow by lia.
  apply Z.pow_lt_mono_r_iff in Hpow; lia.
Qed.

Lemma digits2_pos_iter_xO (p k : positive) :
  digits2_pos (Pos.iter xO p k) = (digits2_pos p + k)%positive.
Proof.
  induction k as [|k IH] using Pos.peano_ind.
  - simpl. lia.
  - rewrite Pos.iter_succ. simpl. rewrite IH. lia.
Qed.

Lemma iter_pos_invariant {A : Type} (P : A -> Prop) (f : A -> A) (n : positive)
    (x : A) :
  P x -> (forall y, P y -> P (f y)) -> P (iter_pos f n x).
Proof.
  intros Hx Hf. revert x Hx.
  induction n as [n IH|n IH|]; intros x Hx; simpl; auto.
Qed.

Lemma shr_1_bounds (mrs : shr_record) (M : Z) :
  0 <= shr_m mrs <= M -> 0 <= shr_m (shr_1 mrs) <= M.
Proof.
  destruct mrs as [m r s]. simpl.
  destruct m as [|[p|p|]|[p|p|]]; simpl; lia.
Qed.

(** Shifting a non-negative mantissa right keeps it non-negative and no
    larger, and raises the exponent to the one the format asks for. *)
Lemma shr_fexp_bounds (m e : Z) (l : location) (mrs : shr_record) (e' : Z) :
  0 <= m ->
  shr_fexp prec emax m e l = (mrs, e') ->
  0 <= shr_m mrs <= m /\ e' = Z.max e (fexp prec emax (Zdigits2 m + e)).
Proof.
  intros Hm. unfold shr_fexp, shr.
  assert (shr_m (shr_record_of_loc m l) = m) as Hrec
    by (by destruct l as [|[]]).
  destruct (fexp prec emax (Zdigits2 m + e) - e) as [|n|n] eqn:Hn;
    intros [= <- <-].
  - rewrite Hrec. lia.
  - split; [|lia].
    apply (iter_pos_invariant (fun y => 0 <= shr_m y <= m)); [lia|].
    intros y. apply shr_1_bounds.
  - rewrite Hrec. lia.
Qed.

Lemma round_nearest_even_bounds (m : Z) (l : location) :
  0 <= m -> m <= round_nearest_even m l <= m + 1.
Proof.
  intros Hm. destruct l as [|[]]; simpl; try lia. destruct (Z.even m); lia.
Qed.

(** Rounding a mantissa below [2^64] with an exponent between -52 and 0
    never overflows: the result is a zero or a finite number. *)
Lemma binary_round_aux_finite (sx : bool) (m e : Z) :
  0 <= m < 2 ^ 64 -> -52 <= e <= 0 ->
  binary_round_aux prec emax sx m e loc_Exact = S754_zero sx \/
  exists m' e', binary_round_aux prec emax sx m e loc_Exact = S754_finite sx m' e'.
Proof.
  intros Hm He. unfold binary_round_aux.
  destruct (shr_fexp prec emax m e loc_Exact) as [mrs1 e1] eqn:H1.
  apply shr_fexp_bounds in H1 as [Hm1 He1]; [|lia].
  pose proof (Zdigits2_bound m 64 Hm ltac:(lia)) as Hd.
  pose proof (round_nearest_even_bounds (shr_m mrs1) (loc_of_shr_record mrs1)
                ltac:(lia)) as Hr.
  set (m2 := round_nearest_even (shr_m mrs1) (loc_of_shr_record mrs1)) in *.
  destruct (shr_fexp prec emax m2 e1 loc_Exact) as [mrs2 e2] eqn:H2.
  apply shr_fexp_bounds in H2 as [Hm2 He2]; [|lia].
  pose proof (Zdigits2_bound m2 65 ltac:(lia) ltac:(lia)) as Hd2.
  unfold fexp, SpecFloat.emin, prec, emax in *.
  destruct (shr_m mrs2) as [|p|p] eqn:Hp; [by left| |lia].
  right. exists p, e2.
  destruct (Z.leb_spec e2 (1024 - 53)); [done|lia].
Qed.

(** [float(n)] is a zero or a positive finite number. *)
Lemma of_uint63_finite (x : int) :
  Prim2SF (of_uint63 x) = S754_zero false \/
  exists m e, Prim2SF (of_uint63 x) = S754_finite false m e.
Proof.
  rewrite of_uint63_spec. pose proof (Uint63.to_Z_bounded x) as Hx.
  change wB with (2 ^ 63) in Hx.
  destruct (Uint63.to_Z x) as [|p|p]; simpl; [by left| |lia].
  unfold binary_round.
  pose proof (Zdigits2_bound (Zpos p) 63 ltac:(lia) ltac:(lia)) as Hd.
  simpl in Hd.
  destruct (shl_align p 0 (fexp prec emax (Zpos (digits2_pos p) + 0)))
    as [mz ez] eqn:Hal.
  unfold shl_align, fexp, SpecFloat.emin, prec, emax in Hal.
  assert (0 <= Zpos mz < 2 ^ 64 /\ -52 <= ez <= 0) as [Hmz Hez].
  { destruct (Z.max (Zpos (digits2_pos p) + 0 - 53) (3 - 1024 - 53) - 0)
      as [|d|d] eqn:Hdiff; injection Hal as <- <-; try lia.
    split; [|lia]. split; [lia|].
    pose proof (digits2_pos_upper (Pos.iter xO p d)) as Hup.
    rewrite digits2_pos_iter_xO in Hup.
    replace (Zpos (digits2_pos p + d)) with 53 in Hup by lia. lia. }
  apply binary_round_aux_finite; lia.
Qed.

(** A zero times [float(n)] is that zero, with its sign. *)
Lemma mul_zero_of_uint63 (x : float) (n : int) :
  (x =? 0)%float = true -> (x * of_uint63 n)%float = x.
Proof.
  rewrite zero_spec. intros [s Hx]. apply Prim2SF_inj.
  rewrite FloatAxioms.mul_spec, Hx.
  destruct (of_uint63_finite n) as [-> | (m & e & ->)]; by destruct s.
Qed.
End Binary64.

(** ** The order of binary64 numbers that are not NaN *)

Section Binary64Order.

Lemma SFcompare_antisym (a b : spec_float) :
  SFcompare b a = CompOpp <$> SFcompare a b.
Proof.
  destruct a as [sa|sa| |sa ma ea], b as [sb|sb| |sb mb eb];
    try destruct sa; try destruct sb; simpl; try reflexivity.
  - rewrite (Z.compare_antisym ea eb).
    destruct (Z.compare ea eb); simpl; try reflexivity.
    change (Pos.compare_cont Eq mb ma) with (Pos.compare mb ma).
    change (Pos.compare_cont Eq ma mb) with (Pos.compare ma mb).
    by rewrite (Pos.compare_antisym ma mb).
  - rewrite (Z.compare_antisym ea eb).
    destruct (Z.compare ea eb); simpl; try reflexivity.
    change (Pos.compare_cont Eq mb ma) with (Pos.compare mb ma).
    change (Pos.compare_cont Eq ma mb) with (Pos.compare ma mb).
    by rewrite (Pos.compare_antisym ma mb).
Qed.

Lemma SFcompare_total (a b : spec_float) :
  a <> S754_nan -> b <> S754_nan -> exists c, SFcompare a b = Some c.
Proof.
  destruct a as [sa|sa| |sa ma ea], b as [sb|sb| |sb mb eb];
    intros Ha Hb; try done; simpl; eauto.
Qed.

Lemma SFcompare_Lt_trans (a b c : spec_float) :
  SFcompare a b = Some Lt -> SFcompare b c = Some Lt -> SFcompare a c = Some Lt.
Proof.
  destruct a as [sa|sa| |sa ma ea], b as [sb|sb| |sb mb eb],
           c as [sc|sc| |sc mc ec];
    try destruct sa; try destruct sb; try destruct sc; simpl;
    try discriminate; try reflexivity; intros Hab Hbc;
    change (Pos.compare_cont Eq) with Pos.compare in *;
    repeat match goal with
           | H : context [Z.compare ?x ?y] |- _ =>
               destruct (Z.compare_spec x y); simpl in H; try discriminate
           | H : context [Pos.compare ?x ?y] |- _ =>
               destruct (Pos.compare_spec x y); simpl in H; try discriminate
           end;
    subst;
    repeat match goal with
           | |- context [Z.compare ?x ?y] =>
               destruct (Z.compare_spec x y); simpl; try lia
           | |- context [Pos.compare ?x ?y] =>
               destruct (Pos.compare_spec x y); simpl; try lia
           end; try reflexivity; try lia.
Qed.

Lemma eqb_sym (x y : float) : (x =? y)%float = (y =? x)%float.
Proof.
  rewrite !FloatAxioms.eqb_spec. unfold SFeqb.
  rewrite (SFcompare_antisym (Prim2SF x) (Prim2SF y)).
  by destruct (SFcompare (Prim2SF x) (Prim2SF y)) as [[]|].
Qed.

Lemma ltb_trans (x y z : float) :
  (x <? y)%float = true -> (y <? z)%float = true -> (x <? z)%float = true.
Proof.
  rewrite !FloatAxioms.ltb_spec. unfold SFltb.
  destruct (SFcompare (Prim2SF x) (Prim2SF y)) as [[]|] eqn:Hxy; try done.
  destruct (SFcompare (Prim2SF y) (Prim2SF z)) as [[]|] eqn:Hyz; try done.
  by rewrite (SFcompare_Lt_trans _ _ _ Hxy Hyz).
Qed.

(** Two numbers, neither smaller than the other nor equal to it: one of
    them is NaN. *)
Lemma ltb_connex (x y : float) :
  is_nan x = false -> is_nan y = false ->
  (x <? y)%float = false -> (x =? y)%float = false -> (y <? x)%float = true.
Proof.
  intros Hx Hy. rewrite !FloatAxioms.ltb_spec, FloatAxioms.eqb_spec. unfold SFltb, SFeqb.
  rewrite (SFcompare_antisym (Prim2SF x) (Prim2SF y)).
  destruct (SFcompare_total (Prim2SF x) (Prim2SF y)) as [c ->].
  - intros H. apply nan_spec in H. congruence.
  - intros H. apply nan_spec in H. congruence.
  - by destruct c.
Qed.

End Binary64Order.

(** ** [datamask] *)

Section Datamask.
Import Np Stuff.
Variables fmri_data mask_data : ndarray.

(** The test [(mask_data[i, j, k] != 0) and (math.isnan(mask_data[i, j, k])
    is False)]. *)
Let selected (i j k : nat) : bool :=
  negb (item mask_data i j k =? 0)%float && negb (is_nan (item mask_data i j k)).

Let pass (nd : ndarray) (v : nat * nat * nat) : ndarray :=
  let '(i, j, k) := v in
  if selected i j k then setitem nd i j k (item fmri_data i j k) else nd.

Lemma datamask_loop_shape (l : list (nat * nat * nat)) (nd : ndarray) :
  shape (foldl pass nd l) = shape nd.
Proof.
  apply (foldl_invariant (fun a => shape a = shape nd)); [done|].
  intros a [[i j] k] _ Ha. unfold pass. by destruct (selected i j k).
Qed.

(** After the loop over any list of voxels, a listed voxel the mask selects
    holds the datum, every other voxel holds what it held before. *)
Lemma datamask_loop_item (l : list (nat * nat * nat)) (nd : ndarray) (i j k : nat) :
  item (foldl pass nd l) i j k =
  if bool_decide ((i, j, k) ∈ l) && selected i j k
  then item fmri_data i j k else item nd i j k.
Proof.
  revert nd. induction l as [|[[i' j'] k'] l IH]; intros nd.
  - by rewrite bool_decide_eq_false_2 by apply not_elem_of_nil.
  - cbn [foldl]. rewrite IH.
    destruct (decide ((i, j, k) = (i', j', k'))) as [Heq|Hne].
    + injection Heq as -> -> ->.
      rewrite (bool_decide_eq_true_2 (_ ∈ _ :: _)) by left.
      unfold pass. destruct (selected i' j' k') eqn:Hsel.
      * rewrite setitem_same. by destruct (bool_decide _).
      * by rewrite !andb_false_r.
    + assert (item (pass nd (i', j', k')) i j k = item nd i j k) as ->.
      { unfold pass. destruct (selected i' j' k'); [|done].
        by apply setitem_other. }
      destruct (decide ((i, j, k) ∈ l)) as [Hin|Hnin].
      * rewrite !bool_decide_eq_true_2; [done|by right|done].
      * rewrite !bool_decide_eq_false_2; [done| |done].
        intros [?|?]%elem_of_cons; done.
Qed.
End Datamask.

(** C6.  For equally shaped [fmri_data] and [mask_data], [datamask] returns
    an array of the same shape that, at every voxel index, holds the datum
    where the mask is neither zero nor NaN and holds NaN everywhere else. *)
Theorem datamask_selects (fmri_data mask_data : Np.ndarray) (nx ny nz i j k : nat) :
  Np.shape fmri_data = (nx, ny, nz) ->
  Np.shape mask_data = (nx, ny, nz) ->
  i < nx -> j < ny -> k < nz ->
  Np.shape (Stuff.datamask fmri_data mask_data) = (nx, ny, nz) /\
  Np.item (Stuff.datamask fmri_data mask_data) i j k =
    if negb (Np.item mask_data i j k =? 0)%float
       && negb (is_nan (Np.item mask_data i j k))
    then Np.item fmri_data i j k
    else nan.
Proof.
  intros Hf _ Hi Hj Hk. unfold Stuff.datamask. rewrite Hf. split.
  - apply datamask_loop_shape.
  - rewrite datamask_loop_item.
    rewrite bool_decide_eq_true_2 by (apply voxels_spec; lia). done.
Qed.

Lemma datamask_selects_witness :
  Np.item (Stuff.datamask Examples.p_fwe Examples.p_fwe) 0 0 1 = 0.02%float /\
  Np.item (Stuff.datamask Examples.p_fwe Examples.p_fwe) 0 0 2 = nan /\
  Np.item (Stuff.datamask Examples.p_fwe Examples.p_fwe) 0 0 3 = nan.
Proof.
  split; [|split].
  - apply (datamask_selects Examples.p_fwe Examples.p_fwe 1 1 4 0 0 1); (reflexivity || lia).
  - apply (datamask_selects Examples.p_fwe Examples.p_fwe 1 1 4 0 0 2); (reflexivity || lia).
  - apply (datamask_selects Examples.p_fwe Examples.p_fwe 1 1 4 0 0 3); (reflexivity || lia).
Defined.

(** ** [fwe_correct] *)

(** The counting loop counts the voxels that are neither NaN nor zero. *)
Lemma count_voxels_spec (p : Np.ndarray) :
  Stuff.count_voxels p = length (counted_voxels p).
Proof.
  unfold Stuff.count_voxels, counted_voxels, counted_among.
  assert (forall (l : list (nat * nat * nat)) (n : nat),
            foldl (fun n '(i, j, k) =>
                     if Stuff.counted (Np.item p i j k) then n + 1 else n) n l
            = n + length (filter (fun '(i, j, k) =>
                                    Stuff.counted (Np.item p i j k) = true) l))
    as Hloop.
  { induction l as [|[[i j] k] l IH]; intros n; [simpl; lia|].
    cbn [foldl]. rewrite IH, filter_cons. case_decide as Hc.
    - rewrite Hc. simpl. lia.
    - apply not_true_is_false in Hc. rewrite Hc. lia. }
  by rewrite Hloop.
Qed.

(** C3.  With [n] the number of voxels of the p-map that are neither NaN nor
    zero, [fwe_correct] returns a map of the same shape in which a voxel that
    held such a [p] holds [p * n], and a voxel that held zero or NaN holds
    what it held; on the map with values 0.01, 0.02, 0, NaN ([n = 2]) the
    output values are 0.02, 0.04, 0, NaN. *)
Theorem fwe_correct_scales (p : Np.ndarray) (i j k : nat) :
  Np.shape (Stuff.fwe_correct p) = Np.shape p /\
  (let n := length (counted_voxels p) in
   if Stuff.counted (Np.item p i j k)
   then Np.item (Stuff.fwe_correct p) i j k
        = (Np.item p i j k * Np.float_of_int n)%float
   else Np.item (Stuff.fwe_correct p) i j k = Np.item p i j k) /\
  values_at (Stuff.fwe_correct Examples.p_fwe) (Np.voxels (Np.shape Examples.p_fwe))
  = [0.02; 0.04; 0; nan]%float.
Proof.
  split; [done|]. split; [|vm_compute; reflexivity].
  cbv zeta. rewrite <- count_voxels_spec.
  unfold Stuff.fwe_correct, Np.scalar_mul, Np.float_of_int. simpl.
  unfold Stuff.counted.
  destruct (is_nan (Np.item p i j k)) eqn:Hnan; simpl.
  - by apply mul_nan_l.
  - destruct (Np.item p i j k =? 0)%float eqn:Hz; simpl; [|done].
    by apply mul_zero_of_uint63.
Qed.

(** ** [fdr_correct] *)

(** The scattering loop writes only at voxels that pass the guard. *)
Lemma scatter_skips (p : Np.ndarray) (newpcluster : list float)
    (l : list (nat * nat * nat)) (f : Np.ndarray) (m i j k : nat) :
  Stuff.counted (Np.item p i j k) = false ->
  Np.item
    (foldl (fun '(f, m) '(i, j, k) =>
              if Stuff.counted (Np.item p i j k)
              then (Np.setitem f i j k (Np.get1 newpcluster m), m + 1)
              else (f, m))
           (f, m) l).1 i j k
  = Np.item f i j k.
Proof.
  intros Hskip. revert f m.
  induction l as [|[[i' j'] k'] l IH]; intros f m; [done|].
  cbn [foldl]. destruct (Stuff.counted (Np.item p i' j' k')) eqn:Hc.
  - rewrite IH. apply setitem_other. congruence.
  - apply IH.
Qed.

Lemma scatter_shape (p : Np.ndarray) (newpcluster : list float)
    (l : list (nat * nat * nat)) (f : Np.ndarray) (m : nat) :
  Np.shape
    (foldl (fun '(f, m) '(i, j, k) =>
              if Stuff.counted (Np.item p i j k)
              then (Np.setitem f i j k (Np.get1 newpcluster m), m + 1)
              else (f, m))
           (f, m) l).1
  = Np.shape f.
Proof.
  revert f m. induction l as [|[[i' j'] k'] l IH]; intros f m; [done|].
  cbn [foldl]. destruct (Stuff.counted (Np.item p i' j' k')); by rewrite IH.
Qed.

(** The shape of the corrected map is the shape of the p-map. *)
Lemma fdr_correct_shape (p : Np.ndarray) :
  Np.shape (Stuff.fdr_correct p) = Np.shape p.
Proof. unfold Stuff.fdr_correct, Stuff.scatter. by rewrite scatter_shape. Qed.

(** C1, evaluated on the 1x1x2 map [[[0.02, 0.01]]] (n = 2).  The voxel
    holding 0.02 has rank 2, so its corrected value would be
    [0.02 * 2 / 1.5]; [fdr_correct] puts there [0.01 * 2 / 0.5], the corrected
    value of the other voxel, and puts [0.02 * 2 / 1.5] at the voxel holding
    0.01: the corrected values come back in rank order, not at the voxels
    their p-values came from. *)
Theorem fdr_correct_descending :
  Np.shape (Stuff.fdr_correct Examples.p_descending) = (1, 1, 2) /\
  Np.item Examples.p_descending 0 0 0 = 0.02%float /\
  Np.item Examples.p_descending 0 0 1 = 0.01%float /\
  Stuff.count_voxels Examples.p_descending = 2 /\
  Np.item (Stuff.fdr_correct Examples.p_descending) 0 0 0
    = (0.01 * Np.float_of_int 2 / (Np.float_of_int 1 - 0.5))%float /\
  Np.item (Stuff.fdr_correct Examples.p_descending) 0 0 1
    = (0.02 * Np.float_of_int 2 / (Np.float_of_int 2 - 0.5))%float /\
  (Np.item (Stuff.fdr_correct Examples.p_descending) 0 0 0
     =? 0.02 * Np.float_of_int 2 / (Np.float_of_int 2 - 0.5))%float = false.
Proof. repeat split; vm_compute; reflexivity. Qed.

(** C4, as the code has it.  At every voxel of the p-map that is NaN and at
    every voxel that is exactly zero, the map returned by [fdr_correct] holds
    NaN: a NaN stays NaN, a zero becomes NaN. *)
Theorem fdr_correct_blank (p : Np.ndarray) (px py pz i j k : nat) :
  Np.shape p = (px, py, pz) ->
  i < px -> j < py -> k < pz ->
  is_nan (Np.item p i j k) = true \/ (Np.item p i j k =? 0)%float = true ->
  Np.shape (Stuff.fdr_correct p) = (px, py, pz) /\
  Np.item (Stuff.fdr_correct p) i j k = nan.
Proof.
  intros Hsh _ _ _ Hv. split; [by rewrite fdr_correct_shape|].
  unfold Stuff.fdr_correct, Stuff.scatter.
  rewrite scatter_skips; [done|].
  unfold Stuff.counted. destruct Hv as [-> | ->]; [done|].
  apply andb_false_r.
Qed.

Lemma fdr_correct_blank_witness :
  Np.item (Stuff.fdr_correct Examples.p_fwe) 0 0 2 = nan /\
  Np.item (Stuff.fdr_correct Examples.p_fwe) 0 0 3 = nan.
Proof.
  split.
  - apply (fdr_correct_blank Examples.p_fwe 1 1 4 0 0 2); try lia; try reflexivity.
    right. reflexivity.
  - apply (fdr_correct_blank Examples.p_fwe 1 1 4 0 0 3); try lia; try reflexivity.
    left. reflexivity.
Defined.

(** C4 as stated fails on the 1x1x1 map [[[0.]]]: the voxel holds zero before
    the call and NaN after it. *)
Lemma fdr_correct_zero_becomes_nan :
  Np.item Examples.p_zero 0 0 0 = 0%float /\
  Np.item (Stuff.fdr_correct Examples.p_zero) 0 0 0 = nan /\
  (Np.item (Stuff.fdr_correct Examples.p_zero) 0 0 0 =? Np.item Examples.p_zero 0 0 0)%float
    = false.
Proof. repeat split; vm_compute; reflexivity. Qed.

(** *** Where the corrected values go *)

Section FdrRankOrder.
Variable p : Np.ndarray.

Lemma counted_among_cons (v : nat * nat * nat) (l : list (nat * nat * nat)) :
  counted_among p (v :: l) =
  if Stuff.counted (Np.item p v.1.1 v.1.2 v.2)
  then v :: counted_among p l else counted_among p l.
Proof.
  destruct v as [[i j] k]. unfold counted_among. rewrite filter_cons. simpl.
  case_decide as Hc.
  - by rewrite Hc.
  - apply not_true_is_false in Hc. by rewrite Hc.
Qed.

Lemma NoDup_voxels (sh : nat * nat * nat) : NoDup (Np.voxels sh).
Proof.
  destruct sh as [[px py] pz]. unfold Np.voxels.
  apply NoDup_bind; [| |apply NoDup_range].
  - intros i1 i2 [[i j] k] _ _ H1 H2.
    apply list_elem_of_bind in H1 as (? & H1 & _).
    apply list_elem_of_bind in H1 as (? & H1 & _).
    apply list_elem_of_bind in H2 as (? & H2 & _).
    apply list_elem_of_bind in H2 as (? & H2 & _).
    apply list_elem_of_singleton in H1, H2. congruence.
  - intros i _. apply NoDup_bind; [| |apply NoDup_range].
    + intros j1 j2 [[i' j] k] _ _ H1 H2.
      apply list_elem_of_bind in H1 as (? & H1 & _).
      apply list_elem_of_bind in H2 as (? & H2 & _).
      apply list_elem_of_singleton in H1, H2. congruence.
    + intros j _. apply NoDup_bind; [| |apply NoDup_range].
      * intros k1 k2 [[i' j'] k] _ _ H1 H2.
        apply list_elem_of_singleton in H1, H2. congruence.
      * intros k _. apply NoDup_singleton.
Qed.

(** The gathering loop copies the counted p-values, in scan order, into
    [pcluster] from position [m] on. *)
Lemma gather_loop (l : list (nat * nat * nat)) (pc : list float) (m : nat) :
  let r := foldl (fun '(pc, m) '(i, j, k) =>
                    if Stuff.counted (Np.item p i j k)
                    then (<[m := Np.item p i j k]> pc, m + 1)
                    else (pc, m)) (pc, m) l in
  let vals := values_at p (counted_among p l) in
  m + length vals <= length pc ->
  length r.1 = length pc /\
  (forall t, t < m -> r.1 !! t = pc !! t) /\
  (forall t, t < length vals -> r.1 !! (m + t) = vals !! t).
Proof.
  cbv zeta. revert pc m. induction l as [|[[i j] k] l IH]; intros pc m Hlen.
  { simpl in *. split; [done|]. split; [done|]. intros t Ht. lia. }
  cbn [foldl]. rewrite counted_among_cons in *. simpl in *.
  destruct (Stuff.counted (Np.item p i j k)).
  - simpl in Hlen.
    destruct (IH (<[m := Np.item p i j k]> pc) (m + 1)) as (H1 & H2 & H3).
    { rewrite length_insert. lia. }
    rewrite length_insert in H1. split; [done|]. split.
    + intros t Ht. rewrite H2 by lia. apply list_lookup_insert_ne. lia.
    + intros [|t] Ht; simpl in *.
      * rewrite Nat.add_0_r, H2 by lia. apply list_lookup_insert_eq. lia.
      * replace (m + S t) with (m + 1 + t) by lia. apply H3. lia.
  - by apply IH.
Qed.

Lemma gather_values :
  (Stuff.gather p (replicate (Stuff.count_voxels p) 0%float)).1
  = values_at p (counted_voxels p).
Proof.
  pose proof (count_voxels_spec p) as Hn.
  unfold Stuff.gather.
  destruct (gather_loop (Np.voxels (Np.shape p))
              (replicate (Stuff.count_voxels p) 0%float) 0) as (H1 & _ & H3).
  { unfold values_at. rewrite length_replicate, length_fmap.
    fold (counted_voxels p). lia. }
  fold (counted_voxels p) in H3.
  rewrite length_replicate in H1.
  assert (length (values_at p (counted_voxels p)) = Stuff.count_voxels p) as Hlen.
  { unfold values_at. by rewrite length_fmap. }
  apply list_eq. intros t. destruct (decide (t < Stuff.count_voxels p)) as [Ht|Ht].
  - apply (H3 t). lia.
  - rewrite !lookup_ge_None_2; [done|lia|lia].
Qed.

(** [argsort] lists every index once, in an order in which no index is
    ranked above a later one. *)
Lemma insert_index_perm (a : list float) (x : nat) (s : list nat) :
  Np.insert_index a x s ≡ₚ x :: s.
Proof.
  induction s as [|y s IH]; simpl; [done|].
  destruct (Np.get1 a x <? Np.get1 a y)%float; [done|].
  rewrite IH. apply perm_swap.
Qed.

Lemma insert_index_sorted (a : list float) (x : nat) (s : list nat) :
  StronglySorted (not_above a) s ->
  StronglySorted (not_above a) (Np.insert_index a x s).
Proof.
  intros Hs. induction Hs as [|y s Hs IH Hy]; simpl.
  { repeat constructor. }
  destruct (Np.get1 a x <? Np.get1 a y)%float eqn:Hlt.
  - constructor; [by constructor|]. constructor.
    + unfold not_above. destruct (Np.get1 a y <? Np.get1 a x)%float eqn:Hyx; [|done].
      pose proof (ltb_trans _ _ _ Hlt Hyx) as Hxx.
      rewrite FloatAxioms.ltb_spec in Hxx. unfold SFltb in Hxx.
      pose proof (SFcompare_antisym (Prim2SF (Np.get1 a x)) (Prim2SF (Np.get1 a x)))
        as Hanti.
      by destruct (SFcompare _ _) as [[]|].
    + eapply Forall_impl; [exact Hy|]. intros w Hw. unfold not_above in *.
      destruct (Np.get1 a w <? Np.get1 a x)%float eqn:Hwx; [|done].
      by rewrite (ltb_trans _ _ _ Hwx Hlt) in Hw.
  - constructor; [done|]. rewrite insert_index_perm. by constructor.
Qed.

Lemma argsort_spec (a : list float) :
  Np.argsort a ≡ₚ range (length a) /\ StronglySorted (not_above a) (Np.argsort a).
Proof.
  unfold Np.argsort. generalize (range (length a)). intros l.
  assert (forall s, StronglySorted (not_above a) s ->
            foldl (fun s x => Np.insert_index a x s) s l ≡ₚ s ++ l /\
            StronglySorted (not_above a)
              (foldl (fun s x => Np.insert_index a x s) s l)) as Hloop.
  { induction l as [|x l IH]; intros s Hs; cbn [foldl].
    - by rewrite app_nil_r.
    - destruct (IH (Np.insert_index a x s)) as [H1 H2];
        [by apply insert_index_sorted|].
      split; [|done]. rewrite H1, insert_index_perm. simpl.
      apply Permutation_middle. }
  apply (Hloop []). constructor.
Qed.

(** The rescaling loop over a list of distinct positions rescales the value
    at the [l]-th of them with the divisor [l + 0.5]. *)
Lemma rescale_ranked_loop (n : nat) (index : list nat) (pc : list float) (k l : nat) :
  NoDup index ->
  (forall t, t ∈ index -> t < length pc) ->
  k <= length index -> l < length index ->
  Np.get1
    (foldl (fun pc l =>
              let t := default 0 (index !! l) in
              <[t := (Np.get1 pc t * Np.float_of_int n
                      / (Np.float_of_int l + 0.5))%float]> pc) pc (range k))
    (default 0 (index !! l))
  = if decide (l < k)
    then (Np.get1 pc (default 0%nat (index !! l)) * Np.float_of_int n
          / (Np.float_of_int l + 0.5))%float
    else Np.get1 pc (default 0 (index !! l)).
Proof.
  intros Hnd Hin. revert l. induction k as [|k IH]; intros l Hk Hl; [done|].
  unfold range in *. rewrite seq_S, foldl_app. cbn [foldl]. simpl "+".
  set (pck := foldl _ pc (seq 0 k)) in *.
  assert (length pck = length pc) as Hlen.
  { unfold pck. apply (foldl_invariant (fun s => length s = length pc)); [done|].
    intros s x _ Hs. by rewrite length_insert. }
  destruct (lookup_lt_is_Some_2 index k ltac:(lia)) as [tk Htk].
  destruct (lookup_lt_is_Some_2 index l Hl) as [tl Htl].
  rewrite Htk, Htl in *. simpl.
  assert (tk < length pc) as Htk' by (eapply Hin, list_elem_of_lookup_2; done).
  specialize (IH l ltac:(lia) Hl) as IHl. rewrite Htl in IHl. simpl in IHl.
  specialize (IH k ltac:(lia) ltac:(lia)) as IHk. rewrite Htk in IHk. simpl in IHk.
  rewrite decide_False in IHk by lia.
  destruct (decide (l = k)) as [->|Hne].
  - assert (tl = tk) as -> by congruence.
    rewrite decide_True by lia. unfold Np.get1 at 1.
    rewrite list_lookup_insert_eq by lia. simpl. by rewrite IHk.
  - assert (tk <> tl) as Htne.
    { intros ->. apply Hne. by eapply NoDup_lookup. }
    unfold Np.get1 at 1. rewrite list_lookup_insert_ne by done.
    fold (Np.get1 pck tl). rewrite IHl.
    destruct (decide (l < k)), (decide (l < S k)); try done; lia.
Qed.

Lemma reorder_lookup (n : nat) (index : list nat) (pc : list float) (l : nat) :
  l < n ->
  Np.get1 (Stuff.reorder n index pc) l = Np.get1 pc (default 0 (index !! l)).
Proof.
  unfold Stuff.reorder. intros Hl.
  assert (forall k, k <= n ->
    let r := foldl (fun np l => <[l := Np.get1 pc (default 0 (index !! l))]> np)
                   (replicate n nan) (range k) in
    length r = n /\
    forall l, l < k -> Np.get1 r l = Np.get1 pc (default 0 (index !! l))) as Hloop.
  { induction k as [|k IH]; intros Hk; cbv zeta.
    - split; [apply length_replicate|]. intros; lia.
    - destruct (IH ltac:(lia)) as [H1 H2].
      unfold range in *. rewrite seq_S, foldl_app. cbn [foldl]. simpl "+".
      split; [by rewrite length_insert|].
      intros l' Hl'. unfold Np.get1 at 1.
      destruct (decide (l' = k)) as [->|Hne].
      + rewrite list_lookup_insert_eq by lia. done.
      + rewrite list_lookup_insert_ne by done. apply H2. lia. }
  destruct (Hloop n ltac:(lia)) as [_ H]. by apply H.
Qed.

(** The scattering loop hands the [t]-th counted voxel the [t]-th element of
    [newpcluster], counting from [m]. *)
Lemma scatter_loop (newpcluster : list float) (l : list (nat * nat * nat))
    (f : Np.ndarray) (m t i j k : nat) :
  NoDup l ->
  counted_among p l !! t = Some (i, j, k) ->
  Np.item
    (foldl (fun '(f, m) '(i, j, k) =>
              if Stuff.counted (Np.item p i j k)
              then (Np.setitem f i j k (Np.get1 newpcluster m), m + 1)
              else (f, m))
           (f, m) l).1 i j k
  = Np.get1 newpcluster (m + t).
Proof.
  intros Hnd. revert f m t.
  induction Hnd as [|[[i' j'] k'] l Hnin Hnd IH]; intros f m t Ht; [done|].
  cbn [foldl]. rewrite counted_among_cons in Ht. simpl in Ht.
  destruct (Stuff.counted (Np.item p i' j' k')) eqn:Hc.
  - destruct t as [|t]; simpl in Ht.
    + injection Ht as -> -> ->. rewrite Nat.add_0_r.
      assert (forall (l' : list (nat * nat * nat)) g m',
                (i, j, k) ∉ l' ->
                Np.item
                  (foldl (fun '(f, m) '(i, j, k) =>
                            if Stuff.counted (Np.item p i j k)
                            then (Np.setitem f i j k (Np.get1 newpcluster m), m + 1)
                            else (f, m)) (g, m') l').1 i j k
                = Np.item g i j k) as Hkeep.
      { induction l' as [|[[a b] c] l' IH']; intros g m' Hni; [done|].
        cbn [foldl]. apply not_elem_of_cons in Hni as [Hne Hni].
        destruct (Stuff.counted (Np.item p a b c)).
        - rewrite IH' by done. by apply setitem_other.
        - by apply IH'. }
      rewrite Hkeep by done. apply setitem_same.
    + rewrite (IH _ _ t Ht). f_equal. lia.
  - by apply IH.
Qed.

End FdrRankOrder.

(** What [fdr_correct] does with the corrected values.  Let [vals] be the
    counted p-values in scan order and [index] their [argsort]: a permutation
    of the positions of [vals] in which no position is ranked above a later
    one.  The [m]-th counted voxel in scan order then receives
    [vals[index[m]] * n / (m + 0.5)]: the corrected value of the p-value of
    rank [m + 1], wherever in the map that p-value is. *)
Theorem fdr_correct_rank_order (p : Np.ndarray) (m i j k : nat) :
  counted_voxels p !! m = Some (i, j, k) ->
  Np.argsort (values_at p (counted_voxels p)) ≡ₚ range (length (counted_voxels p)) /\
  StronglySorted (not_above (values_at p (counted_voxels p)))
    (Np.argsort (values_at p (counted_voxels p))) /\
  exists t,
    Np.argsort (values_at p (counted_voxels p)) !! m = Some t /\
    Np.item (Stuff.fdr_correct p) i j k
    = (Np.get1 (values_at p (counted_voxels p)) t
       * Np.float_of_int (length (counted_voxels p))
       / (Np.float_of_int m + 0.5))%float.
Proof.
  intros Hm.
  set (vals := values_at p (counted_voxels p)).
  assert (length vals = length (counted_voxels p)) as Hlen
    by apply length_fmap.
  destruct (argsort_spec vals) as [Hperm Hsorted]. rewrite Hlen in Hperm.
  split; [done|]. split; [done|].
  assert (m < length (counted_voxels p)) as Hmn by (by eapply lookup_lt_Some).
  assert (length (Np.argsort vals) = length (counted_voxels p)) as Hilen.
  { by rewrite Hperm, length_range. }
  destruct (lookup_lt_is_Some_2 (Np.argsort vals) m ltac:(lia)) as [t Ht].
  exists t. split; [done|].
  pose proof (count_voxels_spec p) as Hn.
  unfold Stuff.fdr_correct, Stuff.scatter.
  rewrite (scatter_loop p _ _ _ 0 m i j k (NoDup_voxels _) Hm). simpl "+".
  rewrite gather_values. fold vals. rewrite Hn.
  rewrite reorder_lookup by done.
  unfold Stuff.rescale_ranked.
  rewrite (rescale_ranked_loop _ _ _ (length (counted_voxels p)) m).
  - rewrite Ht. simpl. by rewrite decide_True.
  - rewrite Hperm. apply NoDup_range.
  - intros x Hx. rewrite Hperm in Hx. apply elem_of_range in Hx. lia.
  - lia.
  - lia.
Qed.

Lemma fdr_correct_rank_order_witness :
  exists t,
    Np.argsort (values_at Examples.p_descending (counted_voxels Examples.p_descending))
      !! 0 = Some t /\
    Np.item (Stuff.fdr_correct Examples.p_descending) 0 0 0
    = (Np.get1 (values_at Examples.p_descending (counted_voxels Examples.p_descending)) t
       * Np.float_of_int (length (counted_voxels Examples.p_descending))
       / (Np.float_of_int 0 + 0.5))%float.
Proof.
  apply (fdr_correct_rank_order Examples.p_descending 0 0 0 0). reflexivity.
Defined.

(** ** [correct_by_threshold] *)

(** The [while] loop leaves with a positive [nsmall] whose cube is not below
    the threshold, and that is the first such [nsmall] from where it started:
    the fuel of [find_nsmall] is enough. *)
Lemma nsmall_loop_exit (fuel : nat) (threshold : Z) (nsmall : nat) :
  1 <= nsmall ->
  (threshold <= Z.of_nat (nsmall + fuel))%Z ->
  let r := Stuff.nsmall_loop fuel threshold nsmall in
  nsmall <= r /\
  (Z.of_nat (r * r * r) <? threshold)%Z = false /\
  (r = nsmall \/ (Z.of_nat ((r - 1) * (r - 1) * (r - 1)) < threshold)%Z).
Proof.
  revert nsmall. induction fuel as [|fuel IH]; intros n Hn Hfuel; simpl.
  - split; [lia|]. split; [|by left]. apply Z.ltb_ge. nia.
  - destruct (Z.ltb_spec (Z.of_nat (n * n * n)) threshold) as [Hlt|Hge].
    + destruct (IH (n + 1)) as (H1 & H2 & H3); [lia|lia|].
      split; [lia|]. split; [done|]. right.
      destruct H3 as [->|H3]; [|done].
      by replace (n + 1 - 1) with n by lia.
    + split; [lia|]. split; [|by left]. by apply Z.ltb_ge.
Qed.

Lemma find_nsmall_exit (threshold : Z) :
  let nsmall := Stuff.find_nsmall threshold in
  1 <= nsmall /\
  (threshold <= Z.of_nat (nsmall * nsmall * nsmall))%Z /\
  (nsmall = 1 \/
   (Z.of_nat ((nsmall - 1) * (nsmall - 1) * (nsmall - 1)) < threshold)%Z).
Proof.
  unfold Stuff.find_nsmall.
  destruct (nsmall_loop_exit (Z.to_nat threshold) threshold 1) as (H1 & H2 & H3);
    [lia|lia|].
  split; [done|]. split; [|done]. by apply Z.ltb_ge.
Qed.

(** Every window the nest visits lies inside the volume. *)
Lemma windows_inside (sx sy sz nlarge i j k : nat) :
  (i, j, k) ∈ Stuff.windows (sx, sy, sz) nlarge ->
  i + nlarge <= sx /\ j + nlarge <= sy /\ k + nlarge <= sz.
Proof. unfold Stuff.windows. rewrite voxels_spec. lia. Qed.

Lemma windows_spec (sx sy sz nlarge i j k : nat) :
  i + nlarge <= sx -> j + nlarge <= sy -> k + nlarge <= sz ->
  (i, j, k) ∈ Stuff.windows (sx, sy, sz) nlarge.
Proof. unfold Stuff.windows. rewrite voxels_spec. lia. Qed.

Lemma in_unit_spec (i j k nsmall a b c : nat) :
  in_unit i j k nsmall a b c = true <->
  (i < a <= i + nsmall) /\ (j < b <= j + nsmall) /\ (k < c <= k + nsmall).
Proof.
  unfold in_unit, Np.in_slice.
  rewrite !andb_true_iff, !Nat.leb_le, !Nat.ltb_lt. lia.
Qed.

(** The clearing nest sets the unit to zero and leaves the rest alone. *)
Lemma clear_unit_item (img : Np.ndarray) (i j k nsmall a b c : nat) :
  Np.item (Stuff.clear_unit img i j k nsmall) a b c =
  if in_unit i j k nsmall a b c then 0%float else Np.item img a b c.
Proof.
  unfold Stuff.clear_unit.
  assert (forall (l : list (nat * nat * nat)) im,
    Np.item
      (foldl (fun im _ =>
                Np.setblock im (i + 1) (j + 1) (k + 1) nsmall
                  (Np.zeros (nsmall, nsmall, nsmall))) im l) a b c
    = if bool_decide (l <> []) && in_unit i j k nsmall a b c
      then 0%float else Np.item im a b c) as Hloop.
  { induction l as [|x l IH]; intros im; [done|].
    cbn [foldl]. rewrite IH.
    rewrite (bool_decide_eq_true_2 (_ :: _ <> [])) by done.
    simpl. fold (in_unit i j k nsmall a b c).
    by destruct (bool_decide _), (in_unit _ _ _ _ _ _ _). }
  rewrite Hloop. destruct (in_unit i j k nsmall a b c) eqn:Hin.
  - rewrite bool_decide_eq_true_2; [done|].
    apply in_unit_spec in Hin. intros Hnil.
    assert ((0, 0, 0) ∈ Np.voxels (nsmall, nsmall, nsmall)) as H0
      by (apply voxels_spec; lia).
    rewrite Hnil in H0. by apply not_elem_of_nil in H0.
  - by rewrite andb_false_r.
Qed.

Lemma clear_unit_shape (img : Np.ndarray) (i j k nsmall : nat) :
  Np.shape (Stuff.clear_unit img i j k nsmall) = Np.shape img.
Proof.
  unfold Stuff.clear_unit.
  apply (foldl_invariant (fun a => Np.shape a = Np.shape img)); [done|].
  intros a' _ _ Ha. done.
Qed.

Lemma visit_fires (threshold : Z) (nsmall nlarge : nat) (img : Np.ndarray)
    (i j k : nat) :
  Stuff.visit threshold nsmall nlarge img (i, j, k) =
  if fires threshold nsmall nlarge img i j k
  then Stuff.clear_unit img i j k nsmall else img.
Proof.
  unfold Stuff.visit, fires.
  destruct (_ <? _); [|done]. destruct (_ =? _); [|done].
  by destruct (_ <? _)%Z.
Qed.

Lemma visit_shape (threshold : Z) (nsmall nlarge : nat) (img : Np.ndarray)
    (w : nat * nat * nat) :
  Np.shape (Stuff.visit threshold nsmall nlarge img w) = Np.shape img.
Proof.
  destruct w as [[i j] k]. rewrite visit_fires.
  destruct (fires _ _ _ _ _ _ _); [apply clear_unit_shape|done].
Qed.

(** One pass leaves a voxel as it was, or writes zero into a voxel of the
    window's unit. *)
Lemma visit_item (threshold : Z) (nsmall nlarge : nat) (img : Np.ndarray)
    (i j k a b c : nat) :
  Np.item (Stuff.visit threshold nsmall nlarge img (i, j, k)) a b c
    = Np.item img a b c \/
  (Np.item (Stuff.visit threshold nsmall nlarge img (i, j, k)) a b c = 0%float /\
   in_unit i j k nsmall a b c = true).
Proof.
  rewrite visit_fires. destruct (fires _ _ _ _ _ _ _); [|by left].
  rewrite clear_unit_item. destruct (in_unit _ _ _ _ _ _ _); [by right|by left].
Qed.

Lemma correct_contents_shape (img : Np.ndarray) (threshold : Z) :
  Np.shape (Stuff.correct_contents img threshold) = Np.shape img.
Proof.
  unfold Stuff.correct_contents.
  apply (foldl_invariant (fun a => Np.shape a = Np.shape img)); [done|].
  intros a' w _ Ha. by rewrite visit_shape.
Qed.

(** Whatever list of windows is visited, a voxel ends with the value it had
    or with zero. *)
Lemma visits_only_clear (threshold : Z) (nsmall nlarge : nat)
    (l : list (nat * nat * nat)) (img : Np.ndarray) (a b c : nat) :
  Np.item (foldl (Stuff.visit threshold nsmall nlarge) img l) a b c
    = Np.item img a b c \/
  Np.item (foldl (Stuff.visit threshold nsmall nlarge) img l) a b c = 0%float.
Proof.
  apply (foldl_invariant
           (fun s => Np.item s a b c = Np.item img a b c \/ Np.item s a b c = 0%float));
    [by left|].
  intros s [[i j] k] _ Hs.
  destruct (visit_item threshold nsmall nlarge s i j k a b c) as [->|[-> _]];
    [done|by right].
Qed.

(** C5.  The map [correct_by_threshold] leaves in [img] has the shape of the
    input, and every voxel of it equals the input voxel or is zero. *)
Theorem correct_by_threshold_only_clears (img : Np.ndarray) (threshold : Z)
    (i j k : nat) :
  Np.shape (Stuff.correct_contents img threshold) = Np.shape img /\
  (Np.item (Stuff.correct_contents img threshold) i j k = Np.item img i j k \/
   Np.item (Stuff.correct_contents img threshold) i j k = 0%float).
Proof.
  split; [apply correct_contents_shape|]. apply visits_only_clear.
Qed.

(** C9.  [correct_by_threshold] changes no voxel on the boundary of the
    volume: a voxel with index 0 or size-1 along some axis keeps its value,
    so every voxel that is changed has its three indices strictly between 0
    and the size minus one, and a non-zero voxel on the boundary stays
    non-zero whatever the size of its cluster. *)
Theorem correct_by_threshold_keeps_boundary (img : Np.ndarray) (threshold : Z)
    (sx sy sz i j k : nat) :
  Np.shape img = (sx, sy, sz) ->
  i < sx -> j < sy -> k < sz ->
  (i = 0 \/ i = sx - 1 \/ j = 0 \/ j = sy - 1 \/ k = 0 \/ k = sz - 1 ->
   Np.item (Stuff.correct_contents img threshold) i j k = Np.item img i j k) /\
  (Np.item (Stuff.correct_contents img threshold) i j k <> Np.item img i j k ->
   0 < i < sx - 1 /\ 0 < j < sy - 1 /\ 0 < k < sz - 1).
Proof.
  intros Hsh Hi Hj Hk.
  assert (Np.item (Stuff.correct_contents img threshold) i j k = Np.item img i j k \/
          (0 < i < sx - 1 /\ 0 < j < sy - 1 /\ 0 < k < sz - 1)) as Hcases.
  { unfold Stuff.correct_contents. rewrite Hsh.
    set (nsmall := Stuff.find_nsmall threshold).
    apply (foldl_invariant
             (fun s => Np.item s i j k = Np.item img i j k \/
                       (0 < i < sx - 1 /\ 0 < j < sy - 1 /\ 0 < k < sz - 1)));
      [by left|].
    intros s [[wi wj] wk] Hw [Hs|Hs]; [|by right].
    apply windows_inside in Hw.
    destruct (visit_item threshold nsmall (nsmall + 2) s wi wj wk i j k)
      as [->|[_ Hin]]; [by left|].
    right. apply in_unit_spec in Hin. lia. }
  split.
  - intros Hb. destruct Hcases as [?|?]; [done|lia].
  - intros Hne. by destruct Hcases.
Qed.

Lemma correct_by_threshold_keeps_boundary_witness :
  Np.item (Stuff.correct_contents Examples.pair_at_edge 2) 0 1 2
  = Np.item Examples.pair_at_edge 0 1 2.
Proof.
  apply (correct_by_threshold_keeps_boundary Examples.pair_at_edge 2 4 4 4 0 1 2);
    [reflexivity|lia|lia|lia|by left].
Defined.

(** C10.  [correct_by_threshold] works on the array object it is given and
    returns that object: the reference returned is the reference passed, the
    store holds the corrected map under it afterwards (so the caller's array
    and the returned map are one array), no other object changes and none is
    created. *)
Theorem correct_by_threshold_in_place (st : Stuff.store) (img : Stuff.ref)
    (threshold : Z) (a : Np.ndarray) :
  st !! img = Some a ->
  exists st',
    Stuff.correct_by_threshold st img threshold = Some (st', img) /\
    st' !! img = Some (Stuff.correct_contents a threshold) /\
    (forall r, r <> img -> st' !! r = st !! r) /\
    dom st' = dom st.
Proof.
  intros Ha. exists (<[img := Stuff.correct_contents a threshold]> st).
  unfold Stuff.correct_by_threshold. rewrite Ha. simpl.
  split; [done|]. split; [apply lookup_insert_eq|].
  split; [intros r Hr; by apply lookup_insert_ne|].
  unfold Stuff.store, Stuff.ref in *. rewrite dom_insert_L.
  apply elem_of_dom_2 in Ha. by apply subseteq_union_1_L, singleton_subseteq_l.
Qed.

Lemma correct_by_threshold_in_place_witness :
  exists st',
    Stuff.correct_by_threshold {[ 7 := Examples.speck ]} 7 2 = Some (st', 7) /\
    st' !! 7 = Some (Stuff.correct_contents Examples.speck 2) /\
    (forall r, r <> 7 -> st' !! r = ({[ 7 := Examples.speck ]} : Stuff.store) !! r) /\
    dom st' = dom ({[ 7 := Examples.speck ]} : Stuff.store).
Proof.
  apply (correct_by_threshold_in_place {[ 7 := Examples.speck ]} 7 2 Examples.speck).
  apply lookup_singleton_eq.
Defined.

(** *** Windows whose shell is zero *)

Lemma on_shell_spec (nlarge x y z : nat) :
  on_shell nlarge x y z = true <->
  x = 0 \/ x = nlarge - 1 \/ y = 0 \/ y = nlarge - 1 \/ z = 0 \/ z = nlarge - 1.
Proof. unfold on_shell. rewrite !orb_true_iff, !Nat.eqb_eq. tauto. Qed.

Lemma shell_zero_item (img : Np.ndarray) (i j k nlarge x y z : nat) :
  shell_zero img i j k nlarge = true ->
  x < nlarge -> y < nlarge -> z < nlarge ->
  on_shell nlarge x y z = true ->
  (Np.item img (i + x) (j + y) (k + z) =? 0)%float = true.
Proof.
  unfold shell_zero. rewrite forallb_forall. intros Hall Hx Hy Hz Hon.
  specialize (Hall (x, y, z)). simpl in Hall. rewrite Hon in Hall.
  apply Hall, list_elem_of_In, voxels_spec. lia.
Qed.

Lemma count0_nonzero_count (l : list float) :
  Np.count0 l + nonzero_count l = length l.
Proof.
  unfold Np.count0, nonzero_count. induction l as [|v l IH]; [done|].
  rewrite !filter_cons. destruct (v =? 0)%float eqn:Hv.
  - rewrite decide_True by done. rewrite decide_False by done. simpl. lia.
  - rewrite decide_False by done. rewrite decide_True by done. simpl. lia.
Qed.

Lemma length_voxels (a b c : nat) : length (Np.voxels (a, b, c)) = a * b * c.
Proof.
  unfold Np.voxels, range.
  assert (forall (f : nat -> list (nat * nat * nat)) n s m,
            (forall x, length (f x) = m) -> length (seq s n ≫= f) = n * m) as Hbind.
  { intros f n. induction n as [|n IH]; intros s m Hf; [done|].
    simpl. rewrite length_app, Hf, (IH _ m) by done. lia. }
  rewrite (Hbind _ a 0 (b * c)); [lia|]. intros i.
  rewrite (Hbind _ b 0 (c * 1)); [lia|]. intros j.
  rewrite (Hbind _ c 0 1); [lia|]. done.
Qed.

Lemma length_block (img : Np.ndarray) (i j k n : nat) :
  length (Np.block img i j k n) = n * n * n.
Proof. unfold Np.block. by rewrite length_fmap, length_voxels. Qed.

(** A list counted as all zeros holds only zeros. *)
Lemma count0_full (l : list float) (v : float) :
  length l <= Np.count0 l -> v ∈ l -> (v =? 0)%float = true.
Proof.
  unfold Np.count0. intros Hlen Hv.
  induction l as [|u l IH]; [by apply not_elem_of_nil in Hv|].
  rewrite filter_cons in Hlen.
  pose proof (length_filter (fun v => (v =? 0)%float = true) l) as Hle.
  destruct (decide ((u =? 0)%float = true)) as [Hu|Hu]; simpl in Hlen; [|lia].
  apply elem_of_cons in Hv as [->|Hv]; [done|]. apply IH; [lia|done].
Qed.

(** Turning entries into zeros cannot lower the count of zeros. *)
Lemma count0_mono {A : Type} (f g : A -> float) (l : list A) :
  (forall x, x ∈ l -> (f x =? 0)%float = true -> (g x =? 0)%float = true) ->
  Np.count0 (f <$> l) <= Np.count0 (g <$> l).
Proof.
  unfold Np.count0. induction l as [|x l IH]; intros Hfg; [done|].
  rewrite !fmap_cons, !filter_cons.
  assert (length (filter (fun v => (v =? 0)%float = true) (f <$> l))
          <= length (filter (fun v => (v =? 0)%float = true) (g <$> l))) as Hl.
  { apply IH. intros y Hy. apply Hfg. by right. }
  destruct (decide ((f x =? 0)%float = true)) as [Hf|Hf].
  - rewrite decide_True by (apply Hfg; [left|done]). simpl. lia.
  - destruct (decide _); simpl; lia.
Qed.

(** A counting loop whose every pass adds [c] adds [c] per pass. *)
Lemma foldl_counts {B : Type} (f : nat -> B -> nat) (c : nat) (l : list B) (ix : nat) :
  (forall ix' x, x ∈ l -> f ix' x = ix' + c) ->
  foldl f ix l = ix + c * length l.
Proof.
  revert ix. induction l as [|x l IH]; intros ix Hf; simpl; [lia|].
  rewrite IH by (intros ix' y Hy; apply Hf; by right).
  rewrite Hf by left. lia.
Qed.

Lemma bump_zero (img : Np.ndarray) (i j k ix : nat) :
  (Np.item img i j k =? 0)%float = true -> Stuff.bump img i j k ix = ix + 1.
Proof. unfold Stuff.bump. by intros ->. Qed.

(** When the shell of a window is zero, the two counting nests find a zero at
    every position they look at. *)
Lemma index1_of_zero_shell (img : Np.ndarray) (i j k nlarge : nat) :
  2 <= nlarge ->
  shell_zero img i j k nlarge = true ->
  Stuff.count_sides img i j k nlarge (Stuff.count_faces img i j k nlarge 0)
  = 2 * (nlarge * nlarge) + 4 * ((nlarge - 1) * (nlarge - 2)).
Proof.
  intros Hn Hshell.
  assert (forall x y z, x < nlarge -> y < nlarge -> z < nlarge ->
            on_shell nlarge x y z = true ->
            forall ix, Stuff.bump img (i + x) (j + y) (k + z) ix = ix + 1) as Hbump.
  { intros x y z Hx Hy Hz Hon ix. apply bump_zero. by apply (shell_zero_item img i j k nlarge). }
  assert (forall ix, Stuff.count_faces img i j k nlarge ix
                     = ix + 2 * nlarge * nlarge) as Hfaces.
  { intros ix. unfold Stuff.count_faces.
    rewrite (foldl_counts _ (2 * nlarge)), length_range; [lia|].
    intros ix1 l Hl. apply elem_of_range in Hl.
    rewrite (foldl_counts _ 2), length_range; [lia|].
    intros ix2 m Hm. apply elem_of_range in Hm.
    replace (k + nlarge - 1) with (k + (nlarge - 1)) by lia.
    rewrite <- (Nat.add_0_r k) at 2.
    rewrite !Hbump; try lia; apply on_shell_spec; lia. }
  assert (forall ix, Stuff.count_sides img i j k nlarge ix
                     = ix + 4 * (nlarge - 2) * (nlarge - 1)) as Hsides.
  { intros ix. unfold Stuff.count_sides.
    rewrite (foldl_counts _ (4 * (nlarge - 2))), length_range; [lia|].
    intros ix1 l Hl. apply elem_of_range in Hl.
    rewrite (foldl_counts _ 4), length_range; [lia|].
    intros ix2 m Hm. apply elem_of_range in Hm.
    replace (i + l + 1) with (i + (l + 1)) by lia.
    replace (j + nlarge - 1) with (j + (nlarge - 1)) by lia.
    replace (i + nlarge - 1) with (i + (nlarge - 1)) by lia.
    replace (j + l + 1) with (j + (l + 1)) by lia.
    rewrite <- (Nat.add_0_r i) at 3. rewrite <- (Nat.add_0_r j) at 4.
    rewrite !Hbump; try lia; apply on_shell_spec; lia. }
  rewrite Hsides, Hfaces. lia.
Qed.

Lemma cleared_from_zero (img s : Np.ndarray) (a b c : nat) :
  cleared_from img s ->
  (Np.item img a b c =? 0)%float = true -> (Np.item s a b c =? 0)%float = true.
Proof. intros Hs Hz. by destruct (Hs a b c) as [-> | ->]. Qed.

Lemma cleared_from_visits (threshold : Z) (nsmall nlarge : nat)
    (l : list (nat * nat * nat)) (img : Np.ndarray) :
  cleared_from img (foldl (Stuff.visit threshold nsmall nlarge) img l).
Proof. intros a b c. apply visits_only_clear. Qed.

Lemma shell_zero_cleared (img s : Np.ndarray) (i j k nlarge : nat) :
  cleared_from img s ->
  shell_zero img i j k nlarge = true -> shell_zero s i j k nlarge = true.
Proof.
  unfold shell_zero. rewrite !forallb_forall. intros Hs Hall [[x y] z] Hin.
  specialize (Hall _ Hin). simpl in *.
  destruct (on_shell nlarge x y z); [|done]. by eapply cleared_from_zero.
Qed.

(** The pass over a window whose shell is zero in the input and whose unit
    holds fewer than [threshold] non-zero voxels there leaves the unit zero. *)
Lemma visit_quiet_window (threshold : Z) (nsmall : nat) (img s : Np.ndarray)
    (i j k a b c : nat) :
  cleared_from img s ->
  shell_zero img i j k (nsmall + 2) = true ->
  (Z.of_nat (nonzero_count (Np.block img (i + 1) (j + 1) (k + 1) nsmall))
   < threshold)%Z ->
  in_unit i j k nsmall a b c = true ->
  (Np.item (Stuff.visit threshold nsmall (nsmall + 2) s (i, j, k)) a b c =? 0)%float
  = true.
Proof.
  intros Hs Hshell Hcount Hin. rewrite visit_fires.
  destruct (fires threshold nsmall (nsmall + 2) s i j k) eqn:Hf.
  { by rewrite clear_unit_item, Hin. }
  apply in_unit_spec in Hin.
  unfold fires in Hf. apply andb_false_iff in Hf as [Hf|Hf];
    [apply andb_false_iff in Hf as [Hf|Hf]|].
  - apply Nat.ltb_ge in Hf.
    apply (count0_full (Np.block s i j k (nsmall + 2))).
    { by rewrite length_block. }
    unfold Np.block. apply list_elem_of_fmap.
    exists (a - i, b - j, c - k). split.
    + f_equal; lia.
    + apply voxels_spec. lia.
  - apply Nat.eqb_neq in Hf. exfalso. apply Hf.
    rewrite index1_of_zero_shell; [nia|lia|by eapply shell_zero_cleared].
  - apply Z.ltb_ge in Hf. exfalso.
    pose proof (count0_nonzero_count (Np.block img (i + 1) (j + 1) (k + 1) nsmall))
      as Hsum.
    rewrite length_block in Hsum.
    assert (Np.count0 (Np.block img (i + 1) (j + 1) (k + 1) nsmall)
            <= Np.count0 (Np.block s (i + 1) (j + 1) (k + 1) nsmall)) as Hmono.
    { unfold Np.block. apply count0_mono. intros [[x y] z] _.
      by apply cleared_from_zero. }
    lia.
Qed.

(** C2, as the code has it.  With [nsmall] the least positive integer whose
    cube reaches the threshold: the output has the shape of the input; every
    voxel of it equals the input voxel or is zero; and wherever a cube of
    [nsmall + 2] voxels a side lies inside the volume with its whole shell
    zero in the input and fewer than [threshold] non-zero voxels in its
    [nsmall]-cube unit, every voxel of that unit (so every cluster inside
    it) is zero in the output. *)
Theorem correct_by_threshold_clears_quiet_window (img : Np.ndarray)
    (threshold : Z) (sx sy sz i j k : nat) :
  Np.shape img = (sx, sy, sz) ->
  i + (Stuff.find_nsmall threshold + 2) <= sx ->
  j + (Stuff.find_nsmall threshold + 2) <= sy ->
  k + (Stuff.find_nsmall threshold + 2) <= sz ->
  shell_zero img i j k (Stuff.find_nsmall threshold + 2) = true ->
  (Z.of_nat (nonzero_count
               (Np.block img (i + 1) (j + 1) (k + 1) (Stuff.find_nsmall threshold)))
   < threshold)%Z ->
  Np.shape (Stuff.correct_contents img threshold) = (sx, sy, sz) /\
  (forall a b c,
     Np.item (Stuff.correct_contents img threshold) a b c = Np.item img a b c \/
     Np.item (Stuff.correct_contents img threshold) a b c = 0%float) /\
  (forall a b c,
     i < a <= i + Stuff.find_nsmall threshold ->
     j < b <= j + Stuff.find_nsmall threshold ->
     k < c <= k + Stuff.find_nsmall threshold ->
     (Np.item (Stuff.correct_contents img threshold) a b c =? 0)%float = true).
Proof.
  intros Hsh Hi Hj Hk Hshell Hcount.
  split; [by rewrite correct_contents_shape|].
  split; [intros a b c; apply visits_only_clear|].
  intros a b c Ha Hb Hc. unfold Stuff.correct_contents. rewrite Hsh.
  set (nsmall := Stuff.find_nsmall threshold) in *.
  destruct (list_elem_of_split (Stuff.windows (sx, sy, sz) (nsmall + 2)) (i, j, k))
    as (l1 & l2 & ->); [by apply windows_spec|].
  rewrite foldl_app. cbn [foldl].
  set (s1 := foldl (Stuff.visit threshold nsmall (nsmall + 2)) img l1).
  assert ((Np.item (Stuff.visit threshold nsmall (nsmall + 2) s1 (i, j, k)) a b c
           =? 0)%float = true) as Hz.
  { apply (visit_quiet_window threshold nsmall img); [|done|done|].
    - apply cleared_from_visits.
    - apply in_unit_spec. lia. }
  by apply (cleared_from_zero _ _ a b c (cleared_from_visits threshold nsmall
              (nsmall + 2) l2 _)).
Qed.

Lemma correct_by_threshold_clears_quiet_window_witness :
  (Np.item (Stuff.correct_contents Examples.speck 2) 1 1 1 =? 0)%float = true.
Proof.
  apply (correct_by_threshold_clears_quiet_window Examples.speck 2 4 4 4 0 0 0);
    try reflexivity; vm_compute; lia.
Defined.

(** C2 as stated fails on a 5x4x4 map whose only non-zero voxels are the line
    (1,1,1), (2,1,1), (3,1,1), each next to the one before: a cluster of three
    voxels, none on the boundary of the volume.  With threshold 4 the cluster
    is below the threshold, and every voxel of it keeps its value. *)
Lemma correct_by_threshold_keeps_line :
  filter (fun '(i, j, k) => (Np.item Examples.line3 i j k =? 0)%float = false)
         (Np.voxels (Np.shape Examples.line3))
    = [(1, 1, 1); (2, 1, 1); (3, 1, 1)] /\
  (3 < 4)%Z /\
  Np.item (Stuff.correct_contents Examples.line3 4) 1 1 1 = 1%float /\
  Np.item (Stuff.correct_contents Examples.line3 4) 2 1 1 = 1%float /\
  Np.item (Stuff.correct_contents Examples.line3 4) 3 1 1 = 1%float /\
  (Np.item (Stuff.correct_contents Examples.line3 4) 1 1 1 =? 0)%float = false.
Proof. repeat split; vm_compute; reflexivity. Qed.

(** The side strips of the second counting nest start at [k] and stop at
    [k + nlarge - 3]: the ring of the shell at depth [k + nlarge - 2] is never
    looked at.  On a 5x4x4 map whose only non-zero voxels are the neighbours
    (1,1,2) and (2,1,2), a cluster of two, threshold 2 clears (2,1,2) through
    the window at (1,0,0), whose shell holds (1,1,2) on that ring. *)
Lemma correct_by_threshold_splits_pair :
  shell_zero Examples.pair_inside 1 0 0 4 = false /\
  fires 2 2 4 Examples.pair_inside 1 0 0 = true /\
  Np.item (Stuff.correct_contents Examples.pair_inside 2) 1 1 2 = 1%float /\
  Np.item (Stuff.correct_contents Examples.pair_inside 2) 2 1 2 = 0%float.
Proof. repeat split; vm_compute; reflexivity. Qed.

(** ** [set] and [sort] on the entries of a matrix *)

Section SortedValues.




Lemma eqb_refl_not_nan (x : float) : is_nan x = false -> (x =? x)%float = true.
Proof. unfold is_nan. by destruct (x =? x)%float. Qed.

(** *** [set] *)

Lemma set_of_loop (l s : list float) :
  let r := foldl (fun s v => if existsb (fun u => (u =? v)%float) s
                             then s else s ++ [v]) s l in
  (forall u, u ∈ r -> u ∈ s \/ u ∈ l) /\
  (forall u, u ∈ s -> u ∈ r) /\
  (forall v, v ∈ l -> is_nan v = false -> exists u, u ∈ r /\ (u =? v)%float = true) /\
  (StronglySorted fne s -> StronglySorted fne r).
Proof.
  revert s. induction l as [|v l IH]; intros s; cbn [foldl].
  { split; [by left|]. split; [done|]. split; [|done].
    intros v Hv. by apply not_elem_of_nil in Hv. }
  set (s' := if existsb (fun u => (u =? v)%float) s then s else s ++ [v]).
  destruct (IH s') as (H1 & H2 & H3 & H4).
  assert (forall u, u ∈ s -> u ∈ s') as Hss'.
  { intros u Hu. unfold s'. destruct (existsb _ s); [done|].
    apply elem_of_app. by left. }
  assert (forall u, u ∈ s' -> u ∈ s \/ u = v) as Hs's.
  { intros u. unfold s'. destruct (existsb _ s); [by left|].
    rewrite elem_of_app, list_elem_of_singleton. tauto. }
  split; [|split; [|split]].
  - intros u Hu. destruct (H1 u Hu) as [Hu'|Hu']; [|right; by right].
    destruct (Hs's u Hu') as [?| ->]; [by left|right; left].
  - intros u Hu. by apply H2, Hss'.
  - intros w [-> |Hw]%elem_of_cons Hnan; [|by apply H3].
    unfold s' in *. destruct (existsb (fun u => (u =? v)%float) s) eqn:Hex.
    + apply existsb_exists in Hex as (u & Hu%list_elem_of_In & Huv).
      exists u. split; [by apply H2|done].
    + exists v. split; [|by apply eqb_refl_not_nan].
      apply H2, elem_of_app. right. by apply list_elem_of_singleton.
  - intros Hs. apply H4. unfold s'.
    destruct (existsb (fun u => (u =? v)%float) s) eqn:Hex; [done|].
    apply StronglySorted_app_2; [|done|repeat constructor].
    intros x1 x2 Hx1 ->%list_elem_of_singleton. unfold fne.
    destruct (x1 =? v)%float eqn:Hx; [|done].
    assert (existsb (fun u => (u =? v)%float) s = true) as Hex'; [|congruence].
    apply existsb_exists. exists x1. split; [by apply list_elem_of_In|done].
Qed.

(** *** [sort] *)

Lemma insert_sorted_perm (v : float) (l : list float) :
  RsaPlot.insert_sorted v l ≡ₚ v :: l.
Proof.
  induction l as [|u l IH]; simpl; [done|].
  destruct (v <? u)%float; [done|]. rewrite IH. apply perm_swap.
Qed.

Lemma insert_sorted_sorted (v : float) (l : list float) :
  is_nan v = false ->
  Forall (fun u => is_nan u = false /\ (v =? u)%float = false) l ->
  StronglySorted flt l ->
  StronglySorted flt (RsaPlot.insert_sorted v l).
Proof.
  intros Hv Hl Hs. induction Hs as [|u l Hs IH Hu]; simpl.
  { repeat constructor. }
  apply Forall_cons in Hl as [[Hnu Hvu] Hl].
  destruct (v <? u)%float eqn:Hlt.
  - constructor; [by constructor|]. constructor; [done|].
    eapply Forall_impl; [exact Hu|]. intros w Hw. by eapply ltb_trans.
  - constructor; [by apply IH|].
    rewrite insert_sorted_perm. constructor; [|done].
    by apply ltb_connex.
Qed.

Lemma sort_loop (l s : list float) :
  Forall (fun u => is_nan u = false) s ->
  Forall (fun u => is_nan u = false) l ->
  StronglySorted flt s ->
  StronglySorted fne l ->
  (forall u v, u ∈ s -> v ∈ l -> fne u v) ->
  StronglySorted flt (foldl (fun s v => RsaPlot.insert_sorted v s) s l) /\
  foldl (fun s v => RsaPlot.insert_sorted v s) s l ≡ₚ s ++ l.
Proof.
  revert s. induction l as [|v l IH]; intros s Hns Hnl Hs Hl Hsl; cbn [foldl].
  { by rewrite app_nil_r. }
  apply Forall_cons in Hnl as [Hv Hnl].
  apply StronglySorted_inv in Hl as [Hl Hvl].
  destruct (IH (RsaPlot.insert_sorted v s)) as [H1 H2]; try done.
  - rewrite insert_sorted_perm. by constructor.
  - apply insert_sorted_sorted; [done| |done].
    apply Forall_forall. intros u Hu. split.
    + by eapply Forall_forall in Hns.
    + rewrite eqb_sym. apply Hsl; [done|left].
  - intros u w Hu Hw. rewrite insert_sorted_perm in Hu.
    apply elem_of_cons in Hu as [-> |Hu].
    + by eapply Forall_forall in Hvl.
    + apply Hsl; [done|by right].
  - split; [done|]. rewrite H2, insert_sorted_perm. simpl.
    apply Permutation_middle.
Qed.

(** The list [lvrdm] of a matrix without NaN: ascending, made of entries,
    and holding a value equal to every entry. *)
Lemma sorted_values_spec (rdm : RsaPlot.matrix) (n : nat) :
  (forall i j, i < n -> j < n -> is_nan (RsaPlot.entry rdm i j) = false) ->
  StronglySorted flt (RsaPlot.sorted_values rdm n) /\
  (forall u, u ∈ RsaPlot.sorted_values rdm n ->
     exists i j, i < n /\ j < n /\ RsaPlot.entry rdm i j = u) /\
  (forall i j, i < n -> j < n ->
     exists u, u ∈ RsaPlot.sorted_values rdm n /\
               (u =? RsaPlot.entry rdm i j)%float = true).
Proof.
  intros Hnan. unfold RsaPlot.sorted_values, RsaPlot.sort, RsaPlot.set_of.
  set (vrdm := (fun '(i, j) => RsaPlot.entry rdm i j) <$> RsaPlot.cells n n).
  assert (forall v, v ∈ vrdm <-> exists i j, i < n /\ j < n /\ RsaPlot.entry rdm i j = v)
    as Hvrdm.
  { intros v. unfold vrdm. rewrite list_elem_of_fmap. split.
    - intros ([i j] & -> & Hij%cells_spec). exists i, j. tauto.
    - intros (i & j & Hi & Hj & <-). exists (i, j). split; [done|].
      by apply cells_spec. }
  destruct (set_of_loop vrdm []) as (H1 & _ & H3 & H4). cbv zeta in *.
  set (svrdm := foldl _ [] vrdm) in *.
  assert (forall u, u ∈ svrdm -> u ∈ vrdm) as Hsub.
  { intros u Hu. destruct (H1 u Hu) as [Hnil|?]; [|done].
    by apply not_elem_of_nil in Hnil. }
  assert (Forall (fun u => is_nan u = false) svrdm) as Hsn.
  { apply Forall_forall. intros u Hu. apply Hsub, Hvrdm in Hu as (i & j & ? & ? & <-).
    by apply Hnan. }
  destruct (sort_loop svrdm []) as [Hsorted Hperm]; try done.
  { constructor. } { apply H4. constructor. }
  { intros u v Hu. by apply not_elem_of_nil in Hu. }
  simpl in Hperm. split; [done|]. split.
  - intros u Hu. rewrite Hperm in Hu. by apply Hvrdm, Hsub.
  - intros i j Hi Hj.
    destruct (H3 (RsaPlot.entry rdm i j)) as (u & Hu & Heq).
    + apply Hvrdm. eauto.
    + by apply Hnan.
    + exists u. by rewrite Hperm.
Qed.


End SortedValues.

(** ** [plot_rdm] and [plot_rdm_withvalue] *)

(** C7.  On a matrix that is 2x2 or not square, [plot_rdm] (whatever
    [rescale] is) and [plot_rdm_withvalue] return [None], leave every entry of
    the matrix as it was, and draw nothing: the checks come before the
    rescaling and before the first call to the plotting backend. *)
Theorem plot_rdm_rejects_shape (rdm : RsaPlot.matrix) (rescale : bool)
    (conditions : option (list string)) (con_fontsize value_fontsize : float)
    (cmap : option string) :
  RsaPlot.mshape rdm = (2, 2) \/ (RsaPlot.mshape rdm).1 <> (RsaPlot.mshape rdm).2 ->
  (RsaPlot.ended (RsaPlot.plot_rdm rdm rescale conditions con_fontsize cmap)
     = RsaPlot.Returned RsaPlot.PyNone /\
   RsaPlot.rdm_after (RsaPlot.plot_rdm rdm rescale conditions con_fontsize cmap)
     = rdm /\
   forallb console_only
     (RsaPlot.trace (RsaPlot.plot_rdm rdm rescale conditions con_fontsize cmap))
     = true) /\
  (RsaPlot.ended
     (RsaPlot.plot_rdm_withvalue rdm value_fontsize conditions con_fontsize cmap)
     = RsaPlot.Returned RsaPlot.PyNone /\
   RsaPlot.rdm_after
     (RsaPlot.plot_rdm_withvalue rdm value_fontsize conditions con_fontsize cmap)
     = rdm /\
   forallb console_only
     (RsaPlot.trace
        (RsaPlot.plot_rdm_withvalue rdm value_fontsize conditions con_fontsize cmap))
     = true).
Proof.
  intros Hshape. unfold RsaPlot.plot_rdm, RsaPlot.plot_rdm_withvalue.
  destruct (RsaPlot.mshape rdm) as [a b] eqn:Hab. simpl in *.
  destruct (Nat.eqb_spec a 2) as [Ha|Ha]; [done|].
  destruct (Nat.eqb_spec a b) as [Hsq|Hsq]; simpl; [|done].
  destruct Hshape as [Hshape|Hshape]; [|done]. congruence.
Qed.

Lemma plot_rdm_rejects_shape_witness :
  RsaPlot.rdm_after (RsaPlot.plot_rdm Examples.rdm2 true None 12 None) = Examples.rdm2 /\
  RsaPlot.ended (RsaPlot.plot_rdm Examples.rdm32 true None 12 None)
    = RsaPlot.Returned RsaPlot.PyNone.
Proof.
  split.
  - apply (plot_rdm_rejects_shape Examples.rdm2 true None 12 10 None).
    left. reflexivity.
  - apply (plot_rdm_rejects_shape Examples.rdm32 true None 12 10 None).
    right. simpl. lia.
Defined.






(** * Further properties of [neurora/stuff.py] *)

(** ** [limtozero] *)

Lemma ltb_irrefl (x : float) : (x <? x)%float = false.
Proof.
  rewrite FloatAxioms.ltb_spec. unfold SFltb.
  pose proof (SFcompare_antisym (Prim2SF x) (Prim2SF x)) as H.
  by destruct (SFcompare (Prim2SF x) (Prim2SF x)) as [[]|].
Qed.

Lemma ltb_asym (x y : float) : (x <? y)%float = true -> (y <? x)%float = false.
Proof.
  intros Hxy. destruct (y <? x)%float eqn:Hyx; [|done].
  by rewrite <- (ltb_irrefl x), (ltb_trans _ _ _ Hxy Hyx).
Qed.


(** ** [fdr_correct] on p-values that ascend in scan order *)

Lemma StronglySorted_lookup_lt {A : Type} (R : relation A) (l : list A)
    (i j : nat) (x y : A) :
  StronglySorted R l -> i < j -> l !! i = Some x -> l !! j = Some y -> R x y.
Proof.
  intros Hs. revert i j. induction Hs as [|z l Hs IH Hz]; intros i j Hij Hi Hj.
  { done. }
  destruct j as [|j]; [lia|]. simpl in Hj. destruct i as [|i]; simpl in Hi.
  - injection Hi as ->. eapply Forall_forall in Hz; [exact Hz|].
    by eapply list_elem_of_lookup_2.
  - apply (IH i j); [lia|done|done].
Qed.

Lemma insert_index_last (a : list float) (x : nat) (s : list nat) :
  (forall y, y ∈ s -> (Np.get1 a x <? Np.get1 a y)%float = false) ->
  Np.insert_index a x s = s ++ [x].
Proof.
  induction s as [|y s IH]; intros Hs; simpl; [done|].
  rewrite (Hs y) by left. f_equal. apply IH. intros z Hz. apply Hs. by right.
Qed.

(** The [argsort] of a strictly ascending array is the identity. *)
Lemma argsort_ascending (a : list float) :
  StronglySorted flt a -> Np.argsort a = range (length a).
Proof.
  intros Hs. unfold Np.argsort.
  assert (forall k, k <= length a ->
            foldl (fun s x => Np.insert_index a x s) [] (range k) = range k) as Hk.
  { induction k as [|k IH]; intros Hle; [done|].
    unfold range in *. rewrite seq_S, foldl_app, IH by lia. cbn [foldl]. simpl "+".
    apply insert_index_last. intros y Hy%elem_of_seq.
    destruct (lookup_lt_is_Some_2 a y ltac:(lia)) as [vy Hvy].
    destruct (lookup_lt_is_Some_2 a k ltac:(lia)) as [vk Hvk].
    unfold Np.get1. rewrite Hvy, Hvk. simpl. apply ltb_asym.
    apply (StronglySorted_lookup_lt flt a y k); [done|lia|done|done]. }
  by apply Hk.
Qed.

(** The value [fdr_correct] leaves at the [m]-th counted voxel. *)
Lemma fdr_correct_item (p : Np.ndarray) (m t i j k : nat) :
  counted_voxels p !! m = Some (i, j, k) ->
  Np.argsort (values_at p (counted_voxels p)) !! m = Some t ->
  Np.item (Stuff.fdr_correct p) i j k
  = (Np.get1 (values_at p (counted_voxels p)) t
     * Np.float_of_int (length (counted_voxels p))
     / (Np.float_of_int m + 0.5))%float.
Proof.
  intros Hm Ht.
  set (vals := values_at p (counted_voxels p)) in *.
  assert (length vals = length (counted_voxels p)) as Hlen by apply length_fmap.
  destruct (argsort_spec vals) as [Hperm _]. rewrite Hlen in Hperm.
  assert (m < length (counted_voxels p)) as Hmn by (by eapply lookup_lt_Some).
  pose proof (count_voxels_spec p) as Hn.
  unfold Stuff.fdr_correct, Stuff.scatter.
  rewrite (scatter_loop p _ _ _ 0 m i j k (NoDup_voxels _) Hm). simpl "+".
  rewrite gather_values. fold vals. rewrite Hn.
  rewrite reorder_lookup by done.
  unfold Stuff.rescale_ranked.
  rewrite (rescale_ranked_loop _ _ _ (length (counted_voxels p)) m).
  - rewrite Ht. simpl. by rewrite decide_True.
  - rewrite Hperm. apply NoDup_range.
  - intros x Hx. rewrite Hperm in Hx. apply elem_of_range in Hx. lia.
  - by rewrite Hperm, length_range.
  - by rewrite Hperm, length_range.
Qed.

(** When the p-values of the counted voxels ascend strictly in scan order,
    every counted voxel receives its own corrected value: the [m]-th of them
    (rank [m + 1]) ends with [p * n / (m + 0.5)]. *)
Theorem fdr_correct_ascending (p : Np.ndarray) (m i j k : nat) :
  StronglySorted flt (values_at p (counted_voxels p)) ->
  counted_voxels p !! m = Some (i, j, k) ->
  Np.item (Stuff.fdr_correct p) i j k
  = (Np.item p i j k * Np.float_of_int (length (counted_voxels p))
     / (Np.float_of_int m + 0.5))%float.
Proof.
  intros Hasc Hm.
  assert (m < length (counted_voxels p)) as Hmn by (by eapply lookup_lt_Some).
  rewrite (fdr_correct_item p m m i j k Hm).
  - unfold Np.get1, values_at. by rewrite list_lookup_fmap, Hm.
  - rewrite argsort_ascending by done. unfold values_at. rewrite length_fmap.
    by apply lookup_seq_lt.
Qed.

Lemma fdr_correct_ascending_witness :
  Np.item (Stuff.fdr_correct Examples.p_fwe) 0 0 1
  = (Np.item Examples.p_fwe 0 0 1
     * Np.float_of_int (length (counted_voxels Examples.p_fwe))
     / (Np.float_of_int 1 + 0.5))%float.
Proof.
  apply (fdr_correct_ascending Examples.p_fwe 1 0 0 1); [|reflexivity].
  repeat constructor.
Defined.

(** ** [correct_by_threshold]: thresholds and volumes that leave nothing to do *)

Lemma find_nsmall_small (threshold : Z) :
  (threshold <= 1)%Z -> Stuff.find_nsmall threshold = 1.
Proof.
  intros Ht. unfold Stuff.find_nsmall.
  destruct (Z.to_nat threshold) as [|fuel] eqn:Hfuel; [done|].
  cbn [Stuff.nsmall_loop]. change (Z.of_nat (1 * 1 * 1)) with 1%Z.
  destruct (Z.ltb_spec 1 threshold); [lia|done].
Qed.

Lemma find_nsmall_positive (threshold : Z) : 1 <= Stuff.find_nsmall threshold.
Proof.
  unfold Stuff.find_nsmall.
  destruct (nsmall_loop_exit (Z.to_nat threshold) threshold 1) as (H & _); lia.
Qed.

(** The clearing nest runs only where the third test found fewer non-zero
    voxels in the unit than the threshold. *)
Lemma fires_count (threshold : Z) (nsmall nlarge : nat) (img : Np.ndarray)
    (i j k : nat) :
  fires threshold nsmall nlarge img i j k = true ->
  (Z.of_nat (nsmall * nsmall * nsmall
             - Np.count0 (Np.block img (i + 1) (j + 1) (k + 1) nsmall))
   < threshold)%Z.
Proof.
  unfold fires. rewrite !andb_true_iff. intros [_ H]. by apply Z.ltb_lt.
Qed.

(** With a threshold of at most 1 no non-zero voxel is cleared: every voxel
    of the result is the input voxel, or a zero written over a voxel equal to
    zero; with a threshold of at most 0 every voxel is the input voxel. *)
Theorem correct_by_threshold_small_threshold (img : Np.ndarray) (threshold : Z)
    (a b c : nat) :
  (threshold <= 1)%Z ->
  (Np.item (Stuff.correct_contents img threshold) a b c = Np.item img a b c \/
   ((Np.item img a b c =? 0)%float = true /\
    Np.item (Stuff.correct_contents img threshold) a b c = 0%float)) /\
  ((threshold <= 0)%Z ->
   Np.item (Stuff.correct_contents img threshold) a b c = Np.item img a b c).
Proof.
  intros Ht. unfold Stuff.correct_contents. rewrite (find_nsmall_small _ Ht).
  split.
  - apply (foldl_invariant
             (fun s => Np.item s a b c = Np.item img a b c \/
                       ((Np.item img a b c =? 0)%float = true /\
                        Np.item s a b c = 0%float))); [by left|].
    intros s [[i j] k] _ Hs. rewrite visit_fires.
    destruct (fires threshold 1 (1 + 2) s i j k) eqn:Hf; [|done].
    rewrite clear_unit_item.
    destruct (in_unit i j k 1 a b c) eqn:Hin; [|done].
    right. split; [|done].
    apply in_unit_spec in Hin. apply fires_count in Hf.
    assert ((Np.item s a b c =? 0)%float = true) as Hz.
    { apply (count0_full (Np.block s (i + 1) (j + 1) (k + 1) 1)).
      - rewrite length_block. lia.
      - unfold Np.block. apply list_elem_of_fmap. exists (0, 0, 0). split.
        + f_equal; lia.
        + apply voxels_spec. lia. }
    destruct Hs as [Hs|[Hs _]]; [by rewrite <- Hs|done].
  - intros Ht0.
    apply (foldl_invariant (fun s => Np.item s a b c = Np.item img a b c)); [done|].
    intros s [[i j] k] _ Hs. rewrite visit_fires.
    destruct (fires threshold 1 (1 + 2) s i j k) eqn:Hf; [|done].
    apply fires_count in Hf. lia.
Qed.

Lemma correct_by_threshold_small_threshold_witness :
  Np.item (Stuff.correct_contents Examples.speck 0) 1 1 1
  = Np.item Examples.speck 1 1 1.
Proof.
  apply (correct_by_threshold_small_threshold Examples.speck 0 1 1 1); lia.
Defined.

(** A volume too thin for a window along some axis comes back as it went in:
    the nest has no window to visit.  Whatever the threshold, that is every
    volume with fewer than 3 voxels along an axis. *)
Theorem correct_by_threshold_thin_volume (img : Np.ndarray) (threshold : Z)
    (sx sy sz : nat) :
  Np.shape img = (sx, sy, sz) ->
  sx < Stuff.find_nsmall threshold + 2 \/ sy < Stuff.find_nsmall threshold + 2
  \/ sz < Stuff.find_nsmall threshold + 2 \/ sx < 3 \/ sy < 3 \/ sz < 3 ->
  Stuff.correct_contents img threshold = img.
Proof.
  intros Hsh Hthin. unfold Stuff.correct_contents. rewrite Hsh.
  pose proof (find_nsmall_positive threshold) as Hpos.
  assert (Stuff.windows (sx, sy, sz) (Stuff.find_nsmall threshold + 2) = [])
    as ->; [|done].
  apply elem_of_nil_inv. intros [[i j] k] Hw.
  apply windows_inside in Hw. lia.
Qed.

Lemma correct_by_threshold_thin_volume_witness :
  Stuff.correct_contents Examples.p_fwe 1 = Examples.p_fwe.
Proof.
  apply (correct_by_threshold_thin_volume Examples.p_fwe 1 1 1 4); [reflexivity|].
  do 3 right. left. lia.
Defined.

(** ** [datamask]: masks compose *)

Lemma datamask_item (fmri_data mask_data : Np.ndarray) (nx ny nz i j k : nat) :
  Np.shape fmri_data = (nx, ny, nz) ->
  i < nx -> j < ny -> k < nz ->
  Np.item (Stuff.datamask fmri_data mask_data) i j k =
    if negb (Np.item mask_data i j k =? 0)%float
       && negb (is_nan (Np.item mask_data i j k))
    then Np.item fmri_data i j k
    else nan.
Proof.
  intros Hf Hi Hj Hk. unfold Stuff.datamask. rewrite Hf.
  rewrite datamask_loop_item.
  rewrite bool_decide_eq_true_2 by (apply voxels_spec; lia). done.
Qed.

Lemma datamask_shape (fmri_data mask_data : Np.ndarray) :
  Np.shape (Stuff.datamask fmri_data mask_data) = Np.shape fmri_data.
Proof.
  unfold Stuff.datamask. destruct (Np.shape fmri_data) as [[nx ny] nz].
  apply datamask_loop_shape.
Qed.

(** Masking twice with the same mask is masking once, and two masks can be
    applied in either order: at every voxel the result holds the datum where
    both masks select it and NaN elsewhere. *)
Theorem datamask_composes (fmri_data mask1 mask2 : Np.ndarray)
    (nx ny nz i j k : nat) :
  Np.shape fmri_data = (nx, ny, nz) ->
  Np.shape mask1 = (nx, ny, nz) ->
  Np.shape mask2 = (nx, ny, nz) ->
  i < nx -> j < ny -> k < nz ->
  Np.item (Stuff.datamask (Stuff.datamask fmri_data mask1) mask1) i j k
    = Np.item (Stuff.datamask fmri_data mask1) i j k /\
  Np.item (Stuff.datamask (Stuff.datamask fmri_data mask1) mask2) i j k
    = Np.item (Stuff.datamask (Stuff.datamask fmri_data mask2) mask1) i j k /\
  Np.item (Stuff.datamask (Stuff.datamask fmri_data mask1) mask2) i j k
    = if (negb (Np.item mask1 i j k =? 0)%float
          && negb (is_nan (Np.item mask1 i j k)))
         && (negb (Np.item mask2 i j k =? 0)%float
             && negb (is_nan (Np.item mask2 i j k)))
      then Np.item fmri_data i j k
      else nan.
Proof.
  intros Hf _ _ Hi Hj Hk.
  assert (forall m, Np.shape (Stuff.datamask fmri_data m) = (nx, ny, nz)) as Hsh.
  { intros m. by rewrite datamask_shape. }
  rewrite !(datamask_item (Stuff.datamask fmri_data _) _ nx ny nz) by done.
  rewrite !(datamask_item fmri_data _ nx ny nz) by done.
  repeat split;
    by destruct (negb (Np.item mask1 i j k =? 0)%float
                 && negb (is_nan (Np.item mask1 i j k))),
                (negb (Np.item mask2 i j k =? 0)%float
                 && negb (is_nan (Np.item mask2 i j k))).
Qed.

Lemma datamask_composes_witness :
  Np.item (Stuff.datamask (Stuff.datamask Examples.p_fwe Examples.p_fwe)
             Examples.p_fwe) 0 0 1
  = Np.item (Stuff.datamask Examples.p_fwe Examples.p_fwe) 0 0 1.
Proof.
  apply (datamask_composes Examples.p_fwe Examples.p_fwe Examples.p_fwe 1 1 4 0 0 1);
    (reflexivity || lia).
Defined.

(** * Further properties of [neurora/rsa_plot.py] *)

(** ** The brain plots *)

(** No number compares equal to NaN. *)
Lemma eqb_nan_r (x : float) : (x =? nan)%float = false.
Proof.
  rewrite FloatAxioms.eqb_spec. unfold SFeqb.
  change (Prim2SF nan) with S754_nan. by destruct (Prim2SF x) as [[]|[]| |[]].
Qed.

Lemma all_equal_nan_iff (imgarray : Np.ndarray) (px py pz : nat) :
  Np.shape imgarray = (px, py, pz) ->
  BrainPlot.all_equal_nan imgarray = true <-> px = 0 \/ py = 0 \/ pz = 0.
Proof.
  intros Hsh. unfold BrainPlot.all_equal_nan. rewrite Hsh. split.
  - intros Hall. rewrite forallb_forall in Hall.
    destruct px as [|px]; [by left|]. destruct py as [|py]; [right; by left|].
    destruct pz as [|pz]; [right; by right|].
    assert ((0, 0, 0) ∈ Np.voxels (S px, S py, S pz)) as H0
      by (apply voxels_spec; lia).
    apply list_elem_of_In, Hall in H0. by rewrite eqb_nan_r in H0.
  - intros Hzero.
    assert (Np.voxels (px, py, pz) = []) as ->; [|done].
    apply elem_of_nil_inv. intros [[i j] k] Hv%voxels_spec. lia.
Qed.

(** The test [(imgarray == np.nan).all()] holds for the arrays without any
    voxel and for no other array, all-NaN arrays included. *)
Theorem all_equal_nan_empty (imgarray : Np.ndarray) (px py pz : nat) :
  Np.shape imgarray = (px, py, pz) ->
  BrainPlot.all_equal_nan imgarray = true <-> px = 0 \/ py = 0 \/ pz = 0.
Proof. apply all_equal_nan_iff. Qed.

Lemma all_equal_nan_empty_witness :
  BrainPlot.all_equal_nan (Np.full (0, 3, 3) 1%float) = true <-> 0 = 0 \/ 3 = 0 \/ 3 = 0.
Proof. apply (all_equal_nan_empty (Np.full (0, 3, 3) 1%float) 0 3 3). reflexivity. Defined.








(** On a path that names no file each of the five brain plots raises
    [FileNotFoundError]; on a file whose data have no voxel each prints
    "No Valid Results" and returns, whatever the threshold: nothing is
    corrected and nothing is drawn. *)
Theorem plot_brainrsa_no_data (fs : BrainPlot.files) (img : string)
    (threshold : option Z) (slice : BrainPlot.cut * BrainPlot.cut * BrainPlot.cut)
    (background : string) :
  let outcome :=
    match fs !! img with
    | None => Some (BrainPlot.Result (BrainPlot.Raised BrainPlot.FileNotFoundError) [])
    | Some v =>
        match Np.shape (BrainPlot.get_data v) with
        | (0, _, _) | (_, 0, _) | (_, _, 0) =>
            Some (BrainPlot.Result BrainPlot.ReturnedNone
                    [BrainPlot.Print "No Valid Results"])
        | _ => None
        end
    end in
  forall r, outcome = Some r ->
    BrainPlot.plot_brainrsa_regions fs img threshold background = r /\
    BrainPlot.plot_brainrsa_montage fs img threshold slice background = r /\
    BrainPlot.plot_brainrsa_glass fs img threshold = r /\
    BrainPlot.plot_brainrsa_surface fs img threshold = r /\
    BrainPlot.plot_brainrsa_rlts fs img threshold slice = r.
Proof.
  intros outcome r Hr.
  assert (forall draw, BrainPlot.with_volume fs img threshold draw = r) as Hall.
  { intros draw. unfold BrainPlot.with_volume, BrainPlot.nib_load. subst outcome.
    destruct (fs !! img) as [v|]; [|congruence].
    destruct (Np.shape (BrainPlot.get_data v)) as [[px py] pz] eqn:Hsh.
    assert (px = 0 \/ py = 0 \/ pz = 0) as Hempty.
    { destruct px as [|px]; [by left|]. destruct py as [|py]; [right; by left|].
      destruct pz as [|pz]; [right; by right|]. discriminate Hr. }
    apply (all_equal_nan_iff _ px py pz Hsh) in Hempty. rewrite Hempty.
    destruct px as [|px]; [congruence|]. destruct py as [|py]; [congruence|].
    destruct pz as [|pz]; [congruence|]. discriminate Hr. }
  unfold BrainPlot.plot_brainrsa_regions, BrainPlot.plot_brainrsa_montage,
    BrainPlot.plot_brainrsa_glass, BrainPlot.plot_brainrsa_surface,
    BrainPlot.plot_brainrsa_rlts.
  by rewrite !Hall.
Qed.

Lemma plot_brainrsa_no_data_witness :
  BrainPlot.plot_brainrsa_surface ∅ "r.nii" (Some 4%Z)
  = BrainPlot.Result (BrainPlot.Raised BrainPlot.FileNotFoundError) [].
Proof.
  apply (plot_brainrsa_no_data ∅ "r.nii" (Some 4%Z)
           (BrainPlot.Coord 6, BrainPlot.Coord 6, BrainPlot.Coord 6) "bg").
  reflexivity.
Defined.

(** ** [plot_rdm] and [plot_rdm_withvalue]: matrices that cannot be rescaled *)

Lemma vrdm_entries (rdm : RsaPlot.matrix) (n : nat) (v : float) :
  v ∈ (fun '(i, j) => RsaPlot.entry rdm i j) <$> RsaPlot.cells n n <->
  exists i j, i < n /\ j < n /\ RsaPlot.entry rdm i j = v.
Proof.
  rewrite list_elem_of_fmap. split.
  - intros ([i j] & -> & Hij%cells_spec). exists i, j. tauto.
  - intros (i & j & Hi & Hj & <-). exists (i, j). split; [done|].
    by apply cells_spec.
Qed.

Lemma set_of_constant (l : list float) (u : float) :
  (forall v, v ∈ l -> (u =? v)%float = true) ->
  foldl (fun s v => if existsb (fun u => (u =? v)%float) s then s else s ++ [v])
        [u] l = [u].
Proof.
  induction l as [|v l IH]; intros Hl; [done|].
  cbn [foldl existsb]. rewrite (Hl v) by left. simpl. apply IH.
  intros w Hw. apply Hl. by right.
Qed.

(** With [rescale=True], a square matrix (not 2x2) whose entries are all
    equal, a 1x1 matrix and the empty matrix among them, makes [plot_rdm]
    raise [IndexError]: the sorted list of distinct values has no element at
    index 1 (none at all for the empty matrix).  Nothing is drawn and the
    matrix is as it was. *)
Theorem plot_rdm_rescale_constant (rdm : RsaPlot.matrix) (n : nat)
    (conditions : option (list string)) (con_fontsize : float)
    (cmap : option string) :
  RsaPlot.mshape rdm = (n, n) ->
  n <> 2 ->
  (forall i j i' j', i < n -> j < n -> i' < n -> j' < n ->
     (RsaPlot.entry rdm i j =? RsaPlot.entry rdm i' j')%float = true) ->
  RsaPlot.plot_rdm rdm true conditions con_fontsize cmap
  = RsaPlot.Result (RsaPlot.Raised RsaPlot.IndexError) rdm [].
Proof.
  intros Hshape Hn Hconst. unfold RsaPlot.plot_rdm. rewrite Hshape. simpl fst.
  destruct (Nat.eqb_spec n 2) as [?|_]; [done|].
  rewrite Nat.eqb_refl. simpl negb. cbv iota.
  assert (RsaPlot.rescale_rdm rdm n = inl RsaPlot.IndexError) as ->; [|done].
  unfold RsaPlot.rescale_rdm, RsaPlot.sorted_values, RsaPlot.set_of.
  pose proof (vrdm_entries rdm n) as Hin.
  destruct ((fun '(i, j) => RsaPlot.entry rdm i j) <$> RsaPlot.cells n n)
    as [|v0 rest]; [done|].
  cbn [foldl existsb app]. rewrite set_of_constant; [done|].
  intros v Hv.
  destruct (proj1 (Hin v0) ltac:(left)) as (i & j & Hi & Hj & <-).
  destruct (proj1 (Hin v) ltac:(by right)) as (i' & j' & Hi' & Hj' & <-).
  by apply Hconst.
Qed.

Lemma plot_rdm_rescale_constant_witness :
  RsaPlot.plot_rdm (Examples.matrix_of [[1]]%float) true None 12 None
  = RsaPlot.Result (RsaPlot.Raised RsaPlot.IndexError)
      (Examples.matrix_of [[1]]%float) [].
Proof.
  apply (plot_rdm_rescale_constant (Examples.matrix_of [[1]]%float) 1 None 12 None);
    [reflexivity|lia|].
  intros [|i] [|j] [|i'] [|j'] Hi Hj Hi' Hj'; (reflexivity || lia).
Defined.

(** With [rescale=True], a square matrix without NaN that has exactly two
    distinct values (say a zero diagonal and one value everywhere else) is
    not rescaled: the largest value is the second-smallest, and [plot_rdm]
    draws the matrix as it is. *)
Theorem plot_rdm_rescale_two_values (rdm : RsaPlot.matrix) (n : nat)
    (conditions : option (list string)) (con_fontsize : float)
    (cmap : option string) :
  RsaPlot.mshape rdm = (n, n) ->
  n <> 2 ->
  (forall i j, i < n -> j < n -> is_nan (RsaPlot.entry rdm i j) = false) ->
  length (RsaPlot.sorted_values rdm n) = 2 ->
  RsaPlot.ended (RsaPlot.plot_rdm rdm true conditions con_fontsize cmap)
    = RsaPlot.Returned RsaPlot.PyNone /\
  RsaPlot.rdm_after (RsaPlot.plot_rdm rdm true conditions con_fontsize cmap) = rdm /\
  head (RsaPlot.trace (RsaPlot.plot_rdm rdm true conditions con_fontsize cmap))
    = Some (RsaPlot.Imshow rdm (default "jet" cmap)).
Proof.
  intros Hshape Hn Hnan Hlen. unfold RsaPlot.plot_rdm. rewrite Hshape. simpl fst.
  destruct (Nat.eqb_spec n 2) as [?|_]; [done|].
  rewrite Nat.eqb_refl. simpl negb. cbv iota.
  assert (RsaPlot.rescale_rdm rdm n = inr rdm) as ->; [|done].
  unfold RsaPlot.rescale_rdm.
  destruct (sorted_values_spec rdm n Hnan) as (_ & Hin & _).
  destruct (RsaPlot.sorted_values rdm n) as [|a [|b [|c l]]]; try done.
  simpl. destruct (Hin b) as (i & j & Hi & Hj & <-); [right; left|].
  by rewrite eqb_refl_not_nan by (by apply Hnan).
Qed.

Lemma plot_rdm_rescale_two_values_witness :
  RsaPlot.rdm_after
    (RsaPlot.plot_rdm (Examples.matrix_of [[0; 1; 1]; [1; 0; 1]; [1; 1; 0]]%float)
       true None 12 None)
  = Examples.matrix_of [[0; 1; 1]; [1; 0; 1]; [1; 1; 0]]%float.
Proof.
  apply (plot_rdm_rescale_two_values
           (Examples.matrix_of [[0; 1; 1]; [1; 0; 1]; [1; 1; 0]]%float) 3 None 12 None);
    [reflexivity|lia| |reflexivity].
  intros [|[|[|i]]] [|[|[|j]]] Hi Hj; (reflexivity || lia).
Defined.

(** On a square matrix with at least one row (not 2x2),
    [plot_rdm_withvalue] completes only when [conditions] is given: without
    it the name [step] is unbound when the first value is to be written, so
    the call raises [UnboundLocalError] after the image is drawn and before
    it is shown.  Either way the matrix is as it was. *)
Theorem plot_rdm_withvalue_needs_conditions (rdm : RsaPlot.matrix) (n : nat)
    (value_fontsize : float) (conditions : option (list string))
    (con_fontsize : float) (cmap : option string) :
  RsaPlot.mshape rdm = (n, n) ->
  1 <= n -> n <> 2 ->
  let r := RsaPlot.plot_rdm_withvalue rdm value_fontsize conditions con_fontsize cmap in
  RsaPlot.ended r
    = (match conditions with
       | None => RsaPlot.Raised RsaPlot.UnboundLocalError
       | Some _ => RsaPlot.Returned RsaPlot.PyNone
       end) /\
  RsaPlot.rdm_after r = rdm /\
  head (RsaPlot.trace r) = Some (RsaPlot.Imshow rdm (default "Greens" cmap)) /\
  last (RsaPlot.trace r)
    = Some (match conditions with
            | None => RsaPlot.PrintCell 0 0
            | Some _ => RsaPlot.Show
            end).
Proof.
  intros Hshape H1 H2 r. subst r. unfold RsaPlot.plot_rdm_withvalue.
  rewrite Hshape. simpl fst.
  destruct (Nat.eqb_spec n 2) as [?|_]; [done|].
  rewrite Nat.eqb_refl. simpl negb. cbv iota.
  destruct n as [|n]; [lia|].
  unfold RsaPlot.add_values.
  assert (exists rest, RsaPlot.cells (S n) (S n) = (0, 0) :: rest) as [rest ->].
  { unfold RsaPlot.cells, range. simpl. eauto. }
  destruct conditions as [cs|]; simpl.
  - split; [done|]. split; [done|]. split; [done|].
    rewrite !app_comm_cons. apply last_snoc.
  - done.
Qed.

Lemma plot_rdm_withvalue_needs_conditions_witness :
  RsaPlot.ended (RsaPlot.plot_rdm_withvalue Examples.rdm3 10 None 12 None)
  = RsaPlot.Raised RsaPlot.UnboundLocalError.
Proof.
  apply (plot_rdm_withvalue_needs_conditions Examples.rdm3 3 10 None 12 None);
    (reflexivity || lia).
Defined.

(** ** The channel labels of [plot_corrs_hotmap] and [plot_nps_hotmap] *)

Lemma str_inj (n m : nat) : Labels.str n = Labels.str m -> n = m.
Proof.
  unfold Labels.str. intros H.
  apply (f_equal DecimalString.NilEmpty.uint_of_string) in H.
  rewrite !DecimalString.NilEmpty.usu in H. injection H as H.
  apply (f_equal Nat.of_uint) in H.
  by rewrite !DecimalNat.Unsigned.of_to in H.
Qed.

Lemma string_length_app (s t : string) :
  String.length (s +:+ t) = String.length s + String.length t.
Proof.
  induction s as [|a s IH]; [done|].
  change (String a s +:+ t) with (String a (s +:+ t)). simpl. by rewrite IH.
Qed.

Lemma string_app_inj_l (s1 s2 t1 t2 : string) :
  String.length t1 = String.length t2 -> s1 +:+ t1 = s2 +:+ t2 -> s1 = s2.
Proof.
  intros Hlen. revert s2. induction s1 as [|a s1 IH]; intros [|b s2] H.
  - done.
  - apply (f_equal String.length) in H.
    rewrite !string_length_app in H. simpl in H. lia.
  - apply (f_equal String.length) in H.
    rewrite !string_length_app in H. simpl in H. lia.
  - change (String a s1 +:+ t1) with (String a (s1 +:+ t1)) in H.
    change (String b s2 +:+ t2) with (String b (s2 +:+ t2)) in H.
    injection H as -> H. f_equal. by apply IH.
Qed.

(** Different channels get different labels. *)
Lemma newlabel_inj (i j : nat) : Labels.newlabel i = Labels.newlabel j -> i = j.
Proof.
  assert (exists t, Labels.newlabel i = Labels.str (i + 1) +:+ t /\ String.length t = 2)
    as (ti & -> & Hi).
  { unfold Labels.newlabel. repeat (destruct (_ && _); [eauto|]). eauto. }
  assert (exists t, Labels.newlabel j = Labels.str (j + 1) +:+ t /\ String.length t = 2)
    as (tj & -> & Hj).
  { unfold Labels.newlabel. repeat (destruct (_ && _); [eauto|]). eauto. }
  intros H. apply string_app_inj_l in H; [|congruence].
  apply str_inj in H. lia.
Qed.

Lemma foldl_snoc_fmap {A B : Type} (f : A -> B) (l : list A) (acc : list B) :
  foldl (fun acc x => acc ++ [f x]) acc l = acc ++ (f <$> l).
Proof.
  revert acc. induction l as [|x l IH]; intros acc; simpl.
  - by rewrite app_nil_r.
  - rewrite IH. by rewrite <- app_assoc.
Qed.

(** When no labels are given, the hotmaps label the [nchls] channels one
    each: channel [i] gets [newlabel i], and no two channels share a label.
    Labels that are given are taken as they are, whatever their number. *)
Theorem set_labels_default (nchls : nat) :
  length (Labels.set_labels None nchls) = nchls /\
  (forall i, i < nchls ->
     Labels.set_labels None nchls !! i = Some (Labels.newlabel i)) /\
  NoDup (Labels.set_labels None nchls) /\
  (forall given, Labels.set_labels (Some given) nchls = given).
Proof.
  unfold Labels.set_labels. rewrite foldl_snoc_fmap. simpl.
  split; [by rewrite length_fmap, length_range|]. split; [|split; [|done]].
  - intros i Hi. rewrite list_lookup_fmap. unfold range.
    by rewrite lookup_seq_lt.
  - apply NoDup_fmap_2_strong; [|apply NoDup_range].
    intros i j _ _. apply newlabel_inj.
Qed.

(** The label of channel [i] is the English ordinal of [i + 1] (1st, 2nd,
    3rd, 4th, ..., 11th, 12th, 13th, ..., 21st, ...) exactly when [i + 1] is
    at most 13 or does not end in 11, 12 or 13: channels 111, 112, 113, 211,
    ... are labelled 111st, 112nd, 113rd, 211st, ... *)
Theorem newlabel_ordinal (i : nat) :
  Labels.newlabel i = Labels.str (i + 1) +:+ ordinal_suffix (i + 1) <->
  i + 1 <= 13 \/
  ((i + 1) mod 100 <> 11 /\ (i + 1) mod 100 <> 12 /\ (i + 1) mod 100 <> 13).
Proof.
  unfold Labels.newlabel, ordinal_suffix.
  pose proof (Nat.div_mod_eq i 10) as E1.
  pose proof (Nat.mod_upper_bound i 10 ltac:(lia)) as B1.
  pose proof (Nat.div_mod_eq (i + 1) 10) as E2.
  pose proof (Nat.mod_upper_bound (i + 1) 10 ltac:(lia)) as B2.
  pose proof (Nat.div_mod_eq (i + 1) 100) as E3.
  pose proof (Nat.mod_upper_bound (i + 1) 100 ltac:(lia)) as B3.
  generalize dependent (i mod 10). generalize dependent (i / 10).
  generalize dependent ((i + 1) mod 10). generalize dependent ((i + 1) / 10).
  generalize dependent ((i + 1) mod 100). generalize dependent ((i + 1) / 100).
  intros d3 m3 E3 B3 d2 m2 E2 B2 d1 m1 E1 B1.
  repeat match goal with
         | |- context [Nat.eqb ?a ?b] =>
             destruct (Nat.eqb_spec a b); try (exfalso; lia); simpl
         end;
    (split;
     [ intros H; first [ lia | apply (inj (String.app _)) in H; discriminate H ]
     | intros H; first [ reflexivity | exfalso; lia ] ]).
Qed.

(** ** [plot_rdm]: what a call can change *)


(** ** [fwe_correct] after [datamask] *)

Lemma filter_length_le {A : Type} (P Q : A -> Prop) `{!forall x, Decision (P x)}
    `{!forall x, Decision (Q x)} (l : list A) :
  (forall x, x ∈ l -> P x -> Q x) -> length (filter P l) <= length (filter Q l).
Proof.
  induction l as [|x l IH]; intros HPQ; [done|].
  rewrite !filter_cons.
  assert (length (filter P l) <= length (filter Q l)) as Hl.
  { apply IH. intros y Hy. apply HPQ. by right. }
  destruct (decide (P x)) as [HP|HP].
  - rewrite decide_True by (apply HPQ; [left|done]). simpl. lia.
  - destruct (decide (Q x)); simpl; lia.
Qed.

(** Masking can only take voxels out of the count that [fwe_correct] and
    [fdr_correct] multiply by: a voxel of the masked data is counted exactly
    when the mask selects it and the data count it, so the count after
    masking is at most the count before. *)
Theorem datamask_count (fmri_data mask_data : Np.ndarray) (nx ny nz i j k : nat) :
  Np.shape fmri_data = (nx, ny, nz) ->
  Np.shape mask_data = (nx, ny, nz) ->
  i < nx -> j < ny -> k < nz ->
  Stuff.counted (Np.item (Stuff.datamask fmri_data mask_data) i j k)
    = (negb (Np.item mask_data i j k =? 0)%float
       && negb (is_nan (Np.item mask_data i j k)))
      && Stuff.counted (Np.item fmri_data i j k) /\
  Stuff.count_voxels (Stuff.datamask fmri_data mask_data)
    <= Stuff.count_voxels fmri_data.
Proof.
  intros Hf _ Hi Hj Hk.
  assert (forall a b c, a < nx -> b < ny -> c < nz ->
            Stuff.counted (Np.item (Stuff.datamask fmri_data mask_data) a b c)
            = (negb (Np.item mask_data a b c =? 0)%float
               && negb (is_nan (Np.item mask_data a b c)))
              && Stuff.counted (Np.item fmri_data a b c)) as Hitem.
  { intros a b c Ha Hb Hc.
    rewrite (datamask_item fmri_data mask_data nx ny nz) by done.
    by destruct (negb (Np.item mask_data a b c =? 0)%float
                 && negb (is_nan (Np.item mask_data a b c))). }
  split; [by apply Hitem|].
  rewrite !count_voxels_spec. unfold counted_voxels, counted_among.
  rewrite datamask_shape, Hf.
  apply filter_length_le. intros [[a b] c] Hin%voxels_spec.
  rewrite Hitem by lia. by intros [_ ?]%andb_true_iff.
Qed.

Lemma datamask_count_witness :
  Stuff.count_voxels (Stuff.datamask Examples.p_fwe Examples.p_fwe)
  <= Stuff.count_voxels Examples.p_fwe.
Proof.
  apply (datamask_count Examples.p_fwe Examples.p_fwe 1 1 4 0 0 0);
    (reflexivity || lia).
Defined.
